(** * semverlint: the API model, the change tree and the diff engine

    A shallow embedding of [api.go], [change.go] and [diff.go].

    Go maps become stdpp's [gmap string _].  The order in which a
    [for k, v := range m] loop visits the keys of a map is not fixed by
    the language, so every such loop takes its visiting order as an explicit
    argument; [range_ok] says when a list of keys is a possible order for a
    map.  Slices are lists, Go's [int] is [Z], a value of the interface
    [types.Type] is an [option GoType] ([None] is the nil interface). *)

From stdpp Require Import gmap strings list fin_maps sorting.

Set Warnings "-register-all,-clear-no-such-hyp".
Open Scope string_scope.
Open Scope list_scope.

(** ** Type descriptors ([go/types], outside this repository) *)

Inductive ChanDir := SendRecv | SendOnly | RecvOnly.

Inductive GoType :=
| TBasic (name : string)
| TNamed (pkg name : string)
| TPointer (elem : GoType)
| TSlice (elem : GoType)
| TArray (len : Z) (elem : GoType)
| TMap (key elem : GoType)
| TChan (dir : ChanDir) (elem : GoType)
| TSignature (params results : list GoType).

(** The structural kind of a descriptor. *)
Inductive Kind :=
  KBasic | KNamed | KPointer | KSlice | KArray | KMap | KChan | KSignature.

Definition kindOf (t : GoType) : Kind :=
  match t with
  | TBasic _ => KBasic
  | TNamed _ _ => KNamed
  | TPointer _ => KPointer
  | TSlice _ => KSlice
  | TArray _ _ => KArray
  | TMap _ _ => KMap
  | TChan _ _ => KChan
  | TSignature _ _ => KSignature
  end.

(** A value of the interface [types.Type]; [None] is nil. *)
Abbreviation TypeI := (option GoType).

(** ** api.go: the API model *)

Record TypeDef := mkTypeDef
  { TypeDef_Name : string; TypeDef_Type : TypeI; TypeDef_Alias : bool }.

Record Var := mkVar { Var_Name : string; Var_Type : TypeI }.

Record Const := mkConst
  { Const_Name : string; Const_Type : TypeI; Const_Value : string }.

Record Func := mkFunc
  { Func_Name : string; Func_Args : list TypeI; Func_Return : list TypeI }.

Record Interface := mkInterface
  { Interface_Name : string; Interface_Methods : list Func }.

Record Field := mkField { Field_Name : string; Field_Type : TypeI }.

Record Struct := mkStruct
  { Struct_Name : string; Struct_Fields : list Field;
    Struct_Methods : list Func }.

Record Package := mkPackage
  { Package_Name : string;
    Package_Path : string;
    Package_Vars : list Var;
    Package_Consts : list Const;
    Package_Funcs : list Func;
    Package_Structs : list Struct;
    Package_Interfaces : list Interface;
    Package_Types : list TypeDef }.

Definition API := list Package.

(** Go's zero values, as returned by a map read that misses. *)
Definition zeroTypeDef : TypeDef := mkTypeDef "" None false.
Definition zeroVar : Var := mkVar "" None.
Definition zeroConst : Const := mkConst "" None "".
Definition zeroFunc : Func := mkFunc "" [] [].
Definition zeroInterface : Interface := mkInterface "" [].
Definition zeroStruct : Struct := mkStruct "" [] [].
Definition zeroPackage : Package := mkPackage "" "" [] [] [] [] [] [].

(** *** Version discovery

    [Versions] reads a repository through go-git, parses tag names with
    Masterminds/semver and sorts with [sort.Stable]; the three libraries are
    outside this repository.  A repository is what its calls return; the
    semver library is a [SemverLib]; [sort.Stable] is [sort_Stable] below. *)

(** [plumbing.Hash], an array of twenty bytes. *)
Definition Hash := list Byte.byte.

Record Version := mkVersion { Version_Name : string; Version_Commit : Hash }.

(** A tag reference: [tag.Name().Short()] and [tag.Hash()]. *)
Record Tag := mkTag { Tag_Short : string; Tag_Hash : Hash }.

(** The results of [r.Head()], of [r.CommitObject(h)] and of one
    [iter.Next()]; the end of the list of steps is [io.EOF]. *)
Inductive HeadResult :=
| HeadAt (h : Hash)
| ErrReferenceNotFound
| HeadFailed (err : string).

Inductive CommitResult :=
| CommitFound
| ErrObjectNotFound
| CommitFailed (err : string).

Inductive IterStep :=
| NextTag (tag : Tag)
| NextFailed (err : string).

Record Repository := mkRepository
  { Repo_Head : HeadResult;
    Repo_Tags : string + list IterStep;
    Repo_CommitObject : Hash → CommitResult }.

Record SemverLib := mkSemverLib
  { SemVer : Type;
    semver_NewVersion : string → option SemVer;
    semver_LessThan : SemVer → SemVer → bool }.

(** What a call returns: its value with a nil error, an error, or a panic. *)
Inductive Outcome (A : Type) :=
| Ok (a : A)
| Err (msg : string)
| Panic.
Arguments Ok {A} a.
Arguments Err {A} msg.
Arguments Panic {A}.

(** [byVersion.Less] on the two elements it reads; [semver.MustParse]
    panics on a name that does not parse, which is [None] here. *)
Definition byVersion_Less (L : SemverLib) (bi bj : Version) : option bool :=
  if String.eqb (Version_Name bi) "HEAD" then Some true
  else if String.eqb (Version_Name bj) "HEAD" then Some false
  else
    v1 ← semver_NewVersion L (Version_Name bi);
    v2 ← semver_NewVersion L (Version_Name bj);
    Some (semver_LessThan L v1 v2).

(** The insertion sort of Go's package [sort]: every element in turn moves
    left while it is [less] than its left neighbour.  [sorted_rev] is the
    sorted prefix, nearest neighbour first. *)
Fixpoint insertLeft {A : Type} (less : A → A → option bool) (x : A)
  (sorted_rev : list A) : option (list A) :=
  match sorted_rev with
  | [] => Some [x]
  | y :: ys =>
      b ← less x y;
      if b : bool then (y ::.) <$> insertLeft less x ys
      else Some (x :: y :: ys)
  end.

Fixpoint insertionSort {A : Type} (less : A → A → option bool)
  (sorted_rev todo : list A) : option (list A) :=
  match todo with
  | [] => Some (reverse sorted_rev)
  | x :: todo =>
      sorted_rev ← insertLeft less x sorted_rev;
      insertionSort less sorted_rev todo
  end.

(** [sort.Stable] sorts blocks by insertion and merges them stably; under a
    [less] that orders the slice the result of a stable sort is unique, and
    it is modelled by the insertion sort over the whole slice. *)
Definition sort_Stable {A : Type} (less : A → A → option bool) (data : list A)
  : option (list A) :=
  insertionSort less [] data.

(** The loop of [Versions] over the tag iterator. *)
Fixpoint tagsLoop (L : SemverLib) (r : Repository) (steps : list IterStep)
  (result : list Version) : Outcome (list Version) :=
  match steps with
  | [] => Ok result
  | NextFailed err :: _ => Err ("error getting next tag: " +:+ err)
  | NextTag tag :: steps =>
      match Repo_CommitObject r (Tag_Hash tag) with
      | ErrObjectNotFound => tagsLoop L r steps result
      | CommitFailed err => Err ("unknown error getting commit: " +:+ err)
      | CommitFound =>
          match semver_NewVersion L (Tag_Short tag) with
          | None => tagsLoop L r steps result
          | Some _ =>
              tagsLoop L r steps
                (result ++ [mkVersion (Tag_Short tag) (Tag_Hash tag)])
          end
      end
  end.

(** [Versions]; [git_PlainOpen] is what [git.PlainOpen] returns for a path. *)
Definition Versions (L : SemverLib) (git_PlainOpen : string → string + Repository)
  (path : string) : Outcome (list Version) :=
  match git_PlainOpen path with
  | inl err => Err ("unable to open repository: " +:+ err)
  | inr r =>
      match Repo_Head r with
      | ErrReferenceNotFound => Err "no HEAD reference found in repository"
      | HeadFailed err => Err ("unable to get HEAD of repository: " +:+ err)
      | HeadAt h =>
          let result := [mkVersion "HEAD" h] in
          match Repo_Tags r with
          | inl err => Err ("unable to list tags of repository: " +:+ err)
          | inr iter =>
              match tagsLoop L r iter result with
              | Ok result =>
                  match sort_Stable (byVersion_Less L) result with
                  | Some result => Ok result
                  | None => Panic
                  end
              | Err msg => Err msg
              | Panic => Panic
              end
          end
      end
  end.

(** The tags of an iteration that resolve to a commit and parse as a
    semantic version, as versions, in the order of the iteration. *)
Definition keptTags (L : SemverLib) (r : Repository) (steps : list IterStep)
  : list Version :=
  omap (λ step,
          match step with
          | NextTag tag =>
              match Repo_CommitObject r (Tag_Hash tag),
                    semver_NewVersion L (Tag_Short tag) with
              | CommitFound, Some _ =>
                  Some (mkVersion (Tag_Short tag) (Tag_Hash tag))
              | _, _ => None
              end
          | NextFailed _ => None
          end) steps.

(** [v] may stand before [w] in ascending order: both names parse and the
    version of [w] is not less than the version of [v]. *)
Definition semver_ascending (L : SemverLib) (v w : Version) : Prop :=
  ∃ a b, semver_NewVersion L (Version_Name v) = Some a
         ∧ semver_NewVersion L (Version_Name w) = Some b
         ∧ semver_LessThan L b a = false.

(** ** change.go: the change tree *)

Inductive DeclType :=
| VarType
| ConstType
| FuncType
| InterfaceType
| StructType
| TypeDefType
| PackageType.

Global Instance DeclType_eq_dec : EqDecision DeclType.
Proof. solve_decision. Defined.

(** [DeclType.String]; its default case, ["INVALID"], is for a byte that is
    none of the seven constants, which [DeclType] leaves out. *)
Definition DeclType_String (d : DeclType) : string :=
  match d with
  | VarType => "package-level variable"
  | ConstType => "package-level constant"
  | FuncType => "function"
  | InterfaceType => "interface"
  | StructType => "struct"
  | TypeDefType => "type definition"
  | PackageType => "package"
  end.

(** [Change] is an interface with the single method [String]; the package
    declares nine implementations.  [OtherChange] stands for a value of any
    other dynamic type (the nil interface, a pointer to one of the nine, a
    [DeclType], a type of another package), which the type switch of
    [IsBreaking] sends to its final [return false]; it carries the result of
    its [String] method. *)
Inductive Change :=
| DeclChange (Name : string) (Type_ : DeclType) (Changes : list Change)
| ArgumentChanged (Pos : Z) (Name : string) (Type_ : TypeI)
    (Changes : list Change)
| ResultChanged (Pos : Z) (Type_ : TypeI) (Changes : list Change)
| FieldChanged (Pos : Z) (Name : string) (Changes : list Change)
| TypeChanged (From To : TypeI)
| PositionChanged (From To : Z)
| Removed
| Added
| ValueChanged (From To : string)
| OtherChange (rendering : option string).

Record PackageChanges := mkPackageChanges
  { PC_Name : string; PC_Path : string; PC_Changes : list Change }.

Definition APIChanges := list PackageChanges.

Definition NewPackageChanges (name path : string) (changes : list Change)
  : PackageChanges := mkPackageChanges name path changes.

Definition NewDeclChange (name : string) (typ : DeclType)
  (changes : list Change) : Change := DeclChange name typ changes.

(** [IsBreaking]: the loop over the children of a [DeclChange] returns true
    at the first breaking child and falls through to [return false]. *)
Fixpoint IsBreaking (change : Change) : bool :=
  match change with
  | Removed
  | PositionChanged _ _
  | TypeChanged _ _
  | FieldChanged _ _ _
  | ResultChanged _ _ _
  | ArgumentChanged _ _ _ _ => true
  | DeclChange _ _ cs =>
      (fix loop (cs : list Change) : bool :=
         match cs with
         | [] => false
         | c :: cs => if IsBreaking c then true else loop cs
         end) cs
  | _ => false
  end.

(** *** Rendering

    The [String] methods format with [fmt.Sprintf]; what [fmt] and
    [go/types] print is outside this repository and enters as the four
    functions of a [Printer].  A rendering is [None] when the method panics:
    [typeString] calls [String] on its argument, which a nil [types.Type]
    does not survive. *)
Record Printer := mkPrinter
  { fmt_d : Z → string;                (* the verb %d on an int *)
    fmt_q : string → string;           (* the verb %q on a string *)
    fmt_q_Type : TypeI → string;       (* the verb %q on a types.Type *)
    Type_String : GoType → string }.   (* the String method of a type *)

Definition typeString (P : Printer) (t : TypeI) : option string :=
  Type_String P <$> t.

(** [strings.Join]. *)
Definition strings_Join (strs : list string) (sep : string) : string :=
  String.concat sep strs.

Fixpoint Change_String (P : Printer) (c : Change) : option string :=
  let joinChanges (cs : list Change) : option string :=
    strs ← mapM (Change_String P) cs; Some (strings_Join strs ", ") in
  match c with
  | DeclChange name typ cs =>
      children ← joinChanges cs;
      Some (DeclType_String typ +:+ " " +:+ name +:+ ": " +:+ children)
  | ArgumentChanged pos name typ cs =>
      t ← typeString P typ;
      children ← joinChanges cs;
      Some ("argument " +:+ name +:+ " with type " +:+ t +:+ " at position "
            +:+ fmt_d P pos +:+ ": " +:+ children)
  | ResultChanged pos typ cs =>
      t ← typeString P typ;
      children ← joinChanges cs;
      Some ("result with type " +:+ t +:+ " at position " +:+ fmt_d P pos
            +:+ ": " +:+ children)
  | FieldChanged pos name cs =>
      children ← joinChanges cs;
      Some ("field " +:+ fmt_q P name +:+ " at position " +:+ fmt_d P pos
            +:+ ": " +:+ children)
  | TypeChanged from to =>
      Some ("type changed from " +:+ fmt_q_Type P from +:+ " to "
            +:+ fmt_q_Type P to)
  | PositionChanged from to =>
      Some ("position changed from " +:+ fmt_d P from +:+ " to " +:+ fmt_d P to)
  | Removed => Some "was removed"
  | Added => Some "was added"
  | ValueChanged from to =>
      Some ("value changed from " +:+ from +:+ " to " +:+ to)
  | OtherChange rendering => rendering
  end.

Definition joinChanges (P : Printer) (cs : list Change) : option string :=
  strs ← mapM (Change_String P) cs; Some (strings_Join strs ", ").


(** ** diff.go *)

(** [typesEqual] ignores both arguments. *)
Definition typesEqual (a b : TypeI) : bool := false.

(** A [for k, v := range m] loop visiting the keys in the order [o],
    threading the loop's variables as a state. *)
Definition range {V S : Type} (m : gmap string V) (o : list string)
  (body : string → V → S → S) (s : S) : S :=
  foldl (λ s k, match m !! k with Some v => body k v s | None => s end) s o.

(** [o] is a possible visiting order of [m]: every key once. *)
Definition range_ok {V : Type} (m : gmap string V) (o : list string) : Prop :=
  NoDup o ∧ list_to_set o = dom m.

(** The two-result map read [v, ok := m[k]]. *)
Definition comma_ok {V : Type} (zero : V) (m : gmap string V) (k : string)
  : V * bool :=
  match m !! k with
  | Some v => (v, true)
  | None => (zero, false)
  end.

(** The seven index builders have one shape: a map written once per element,
    in slice order. *)
Definition index {A : Type} (key : A → string) (xs : list A) : gmap string A :=
  foldl (λ result x, <[key x := x]> result) ∅ xs.

Definition packagesIndex (a : API) : gmap string Package := index Package_Path a.
Definition constsIndex (xs : list Const) : gmap string Const := index Const_Name xs.
Definition varsIndex (xs : list Var) : gmap string Var := index Var_Name xs.
Definition funcsIndex (xs : list Func) : gmap string Func := index Func_Name xs.
Definition interfacesIndex (xs : list Interface) : gmap string Interface :=
  index Interface_Name xs.
Definition structsIndex (xs : list Struct) : gmap string Struct :=
  index Struct_Name xs.
Definition typesIndex (xs : list TypeDef) : gmap string TypeDef :=
  index TypeDef_Name xs.

(** The second loop of every differ: the names of [current] not in [seen]. *)
Definition addedLoop {V : Type} (typ : DeclType) (currentIdx : gmap string V)
  (o2 : list string) (seen : gset string) (changes : list Change)
  : list Change :=
  range currentIdx o2
    (λ name _ changes,
       if decide (name ∈ seen) then changes
       else changes ++ [NewDeclChange name typ [Added]])
    changes.

Definition constsDiff (o1 o2 : list string) (prev current : list Const)
  : list Change :=
  let currentConsts := constsIndex current in
  let prevConsts := constsIndex prev in
  let '(changes, seen) :=
    range prevConsts o1
      (λ name v '(changes, seen),
         let seen := {[name]} ∪ seen in
         let '(v2, ok) := comma_ok zeroConst currentConsts name in
         let changes :=
           if negb ok
           then changes ++ [NewDeclChange name ConstType [Removed]]
           else changes in
         let changes :=
           if negb (typesEqual (Const_Type v) (Const_Type v2))
           then changes ++ [NewDeclChange name ConstType
                              [TypeChanged (Const_Type v) (Const_Type v2)]]
           else changes in
         let changes :=
           if negb (String.eqb (Const_Value v) (Const_Value v2))
           then changes ++ [NewDeclChange name ConstType
                              [ValueChanged (Const_Value v) (Const_Value v2)]]
           else changes in
         (changes, seen))
      ([], ∅) in
  addedLoop ConstType currentConsts o2 seen changes.

Definition varsDiff (o1 o2 : list string) (prev current : list Var)
  : list Change :=
  let currentVars := varsIndex current in
  let prevVars := varsIndex prev in
  let '(changes, seen) :=
    range prevVars o1
      (λ name v '(changes, seen),
         let seen := {[name]} ∪ seen in
         let '(v2, ok) := comma_ok zeroVar currentVars name in
         let changes :=
           if negb ok
           then changes ++ [NewDeclChange name VarType [Removed]]
           else if negb (typesEqual (Var_Type v) (Var_Type v2))
           then changes ++ [NewDeclChange name VarType
                              [TypeChanged (Var_Type v) (Var_Type v2)]]
           else changes in
         (changes, seen))
      ([], ∅) in
  addedLoop VarType currentVars o2 seen changes.

(** The bodies of the next three loops end after the removal test: the
    comparison of arguments, results, fields and methods is a TODO in the
    source, and [v], [v2] are discarded. *)
Definition funcsDiff (o1 o2 : list string) (prev current : list Func)
  : list Change :=
  let currentFuncs := funcsIndex current in
  let prevFuncs := funcsIndex prev in
  let '(changes, seen) :=
    range prevFuncs o1
      (λ name v '(changes, seen),
         let seen := {[name]} ∪ seen in
         let '(v2, ok) := comma_ok zeroFunc currentFuncs name in
         let changes :=
           if negb ok
           then changes ++ [NewDeclChange name FuncType [Removed]]
           else changes in
         (changes, seen))
      ([], ∅) in
  addedLoop FuncType currentFuncs o2 seen changes.

Definition structsDiff (o1 o2 : list string) (prev current : list Struct)
  : list Change :=
  let currentStructs := structsIndex current in
  let prevStructs := structsIndex prev in
  let '(changes, seen) :=
    range prevStructs o1
      (λ name v '(changes, seen),
         let seen := {[name]} ∪ seen in
         let '(v2, ok) := comma_ok zeroStruct currentStructs name in
         let changes :=
           if negb ok
           then changes ++ [NewDeclChange name StructType [Removed]]
           else changes in
         (changes, seen))
      ([], ∅) in
  addedLoop StructType currentStructs o2 seen changes.

Definition interfacesDiff (o1 o2 : list string) (prev current : list Interface)
  : list Change :=
  let currentInterfaces := interfacesIndex current in
  let prevInterfaces := interfacesIndex prev in
  let '(changes, seen) :=
    range prevInterfaces o1
      (λ name v '(changes, seen),
         let seen := {[name]} ∪ seen in
         let '(v2, ok) := comma_ok zeroInterface currentInterfaces name in
         let changes :=
           if negb ok
           then changes ++ [NewDeclChange name InterfaceType [Removed]]
           else changes in
         (changes, seen))
      ([], ∅) in
  addedLoop InterfaceType currentInterfaces o2 seen changes.

Definition typesDiff (o1 o2 : list string) (prev current : list TypeDef)
  : list Change :=
  let currentTypes := typesIndex current in
  let prevTypes := typesIndex prev in
  let '(changes, seen) :=
    range prevTypes o1
      (λ name v '(changes, seen),
         let seen := {[name]} ∪ seen in
         let '(v2, ok) := comma_ok zeroTypeDef currentTypes name in
         let changes :=
           if negb ok
           then changes ++ [NewDeclChange name TypeDefType [Removed]]
           else changes in
         let changes :=
           if negb (typesEqual (TypeDef_Type v) (TypeDef_Type v2))
           then changes ++ [NewDeclChange name TypeDefType
                              [TypeChanged (TypeDef_Type v) (TypeDef_Type v2)]]
           else changes in
         (changes, seen))
      ([], ∅) in
  addedLoop TypeDefType currentTypes o2 seen changes.

(** The visiting orders of the twelve loops of one [packageDiff] call: for
    every category the order of the loop over the [prev] index and the order
    of the loop over the [current] index. *)
Definition PkgOrd := DeclType → list string * list string.

Definition packageDiff (po : PkgOrd) (prev current : Package) : PackageChanges :=
  let changes := [] in
  let changes := changes ++
    constsDiff (po ConstType).1 (po ConstType).2
      (Package_Consts prev) (Package_Consts current) in
  let changes := changes ++
    varsDiff (po VarType).1 (po VarType).2
      (Package_Vars prev) (Package_Vars current) in
  let changes := changes ++
    funcsDiff (po FuncType).1 (po FuncType).2
      (Package_Funcs prev) (Package_Funcs current) in
  let changes := changes ++
    structsDiff (po StructType).1 (po StructType).2
      (Package_Structs prev) (Package_Structs current) in
  let changes := changes ++
    interfacesDiff (po InterfaceType).1 (po InterfaceType).2
      (Package_Interfaces prev) (Package_Interfaces current) in
  let changes := changes ++
    typesDiff (po TypeDefType).1 (po TypeDefType).2
      (Package_Types prev) (Package_Types current) in
  mkPackageChanges (Package_Name current) (Package_Path current) changes.

(** The visiting orders of one [Diff] call: its two loops over the package
    indices and, for every path, the orders inside the [packageDiff] call made
    for that path. *)
Record Sched := mkSched
  { sched_prev : list string;
    sched_current : list string;
    sched_pkg : string → PkgOrd }.

(** [Diff] passes [p2], the package of [current], as the parameter [prev] of
    [packageDiff], and [p1], the package of [prev], as its parameter
    [current]. *)
Definition Diff (s : Sched) (current prev : API) : APIChanges :=
  let currentPkgs := packagesIndex current in
  let prevPkgs := packagesIndex prev in
  let '(changes, seen) :=
    range prevPkgs (sched_prev s)
      (λ path p1 '(changes, seen),
         let seen := {[path]} ∪ seen in
         let '(p2, ok) := comma_ok zeroPackage currentPkgs path in
         if negb ok
         then (changes ++
                 [NewPackageChanges (Package_Name p1) (Package_Path p1)
                    [NewDeclChange (Package_Name p1) PackageType [Removed]]],
               seen)
         else (changes ++ [packageDiff (sched_pkg s path) p2 p1], seen))
      (([], ∅) : APIChanges * gset string) in
  range currentPkgs (sched_current s)
    (λ path p changes,
       if decide (path ∈ seen) then changes
       else changes ++
              [NewPackageChanges (Package_Name p) (Package_Path p)
                 [NewDeclChange (Package_Name p) PackageType [Added]]])
    changes.

(** The name and the category a top-level change record is about. *)
Definition declName (c : Change) : option string :=
  match c with
  | DeclChange name _ _ => Some name
  | _ => None
  end.

Definition declKind (c : Change) : option DeclType :=
  match c with
  | DeclChange _ typ _ => Some typ
  | _ => None
  end.

(** The changes of a list that are about the declaration [name]. *)
Definition changesFor (name : string) (cs : list Change) : list Change :=
  filter (λ c, declName c = Some name) cs.

(** [o] holds possible visiting orders for the two loops of a differ
    over [prev] and [current]. *)
Definition differ_ok {A : Type} (key : A → string) (o : list string * list string)
  (prev current : list A) : Prop :=
  range_ok (index key prev) o.1 ∧ range_ok (index key current) o.2.

Definition pkgOrd_ok (po : PkgOrd) (prev current : Package) : Prop :=
  differ_ok Const_Name (po ConstType) (Package_Consts prev) (Package_Consts current)
  ∧ differ_ok Var_Name (po VarType) (Package_Vars prev) (Package_Vars current)
  ∧ differ_ok Func_Name (po FuncType) (Package_Funcs prev) (Package_Funcs current)
  ∧ differ_ok Struct_Name (po StructType)
      (Package_Structs prev) (Package_Structs current)
  ∧ differ_ok Interface_Name (po InterfaceType)
      (Package_Interfaces prev) (Package_Interfaces current)
  ∧ differ_ok TypeDef_Name (po TypeDefType)
      (Package_Types prev) (Package_Types current).

(** [s] holds possible visiting orders for every loop of [Diff current prev]. *)
Definition sched_ok (s : Sched) (current prev : API) : Prop :=
  range_ok (packagesIndex prev) (sched_prev s)
  ∧ range_ok (packagesIndex current) (sched_current s)
  ∧ ∀ path p1 p2,
      packagesIndex prev !! path = Some p1 →
      packagesIndex current !! path = Some p2 →
      pkgOrd_ok (sched_pkg s path) p2 p1.

(** One schedule every pair of snapshots has: each map in the order of
    [elements]. *)
Definition keysOf {A : Type} (key : A → string) (xs : list A) : list string :=
  elements (dom (index key xs)).

Definition canonicalPkgOrd (prev current : Package) : PkgOrd :=
  λ typ,
    match typ with
    | ConstType => (keysOf Const_Name (Package_Consts prev),
                    keysOf Const_Name (Package_Consts current))
    | VarType => (keysOf Var_Name (Package_Vars prev),
                  keysOf Var_Name (Package_Vars current))
    | FuncType => (keysOf Func_Name (Package_Funcs prev),
                   keysOf Func_Name (Package_Funcs current))
    | StructType => (keysOf Struct_Name (Package_Structs prev),
                     keysOf Struct_Name (Package_Structs current))
    | InterfaceType => (keysOf Interface_Name (Package_Interfaces prev),
                        keysOf Interface_Name (Package_Interfaces current))
    | TypeDefType => (keysOf TypeDef_Name (Package_Types prev),
                      keysOf TypeDef_Name (Package_Types current))
    | PackageType => ([], [])
    end.

Definition canonicalSched (current prev : API) : Sched :=
  mkSched (keysOf Package_Path prev) (keysOf Package_Path current)
    (λ path,
       canonicalPkgOrd
         (default zeroPackage (packagesIndex current !! path))
         (default zeroPackage (packagesIndex prev !! path))).

(** Two change lists of one package that differ in the order of their
    changes only, category by category. *)
Definition pc_equiv (p q : PackageChanges) : Prop :=
  PC_Name p = PC_Name q
  ∧ PC_Path p = PC_Path q
  ∧ PC_Changes p ≡ₚ PC_Changes q
  ∧ declKind <$> PC_Changes p = declKind <$> PC_Changes q.

(** Two results of [Diff] that hold the same packages up to their order,
    each with the same changes up to their order inside a category. *)
Definition APIChanges_equiv (l l' : APIChanges) : Prop :=
  ∃ l'', l ≡ₚ l'' ∧ Forall2 pc_equiv l'' l'.


(** ** Vocabulary of the statements *)

Global Instance range_ok_dec {V} (m : gmap string V) o : Decision (range_ok m o).
Proof. unfold range_ok. apply _. Defined.

(** The changes one round of the first loop appends for the entry [v] of
    [prev] named [name], given the result [o] of reading [current]. *)
Definition constEmit (name : string) (v : Const) (o : option Const)
  : list Change :=
  let v2 := default zeroConst o in
  (if o is None then [NewDeclChange name ConstType [Removed]] else []) ++
  (if negb (typesEqual (Const_Type v) (Const_Type v2))
   then [NewDeclChange name ConstType
           [TypeChanged (Const_Type v) (Const_Type v2)]] else []) ++
  (if negb (String.eqb (Const_Value v) (Const_Value v2))
   then [NewDeclChange name ConstType
           [ValueChanged (Const_Value v) (Const_Value v2)]] else []).

Definition varEmit (name : string) (v : Var) (o : option Var) : list Change :=
  match o with
  | None => [NewDeclChange name VarType [Removed]]
  | Some v2 =>
      if negb (typesEqual (Var_Type v) (Var_Type v2))
      then [NewDeclChange name VarType [TypeChanged (Var_Type v) (Var_Type v2)]]
      else []
  end.

Definition removedEmit {A : Type} (typ : DeclType) (name : string) (v : A)
  (o : option A) : list Change :=
  if o is None then [NewDeclChange name typ [Removed]] else [].

Definition typeDefEmit (name : string) (v : TypeDef) (o : option TypeDef)
  : list Change :=
  let v2 := default zeroTypeDef o in
  (if o is None then [NewDeclChange name TypeDefType [Removed]] else []) ++
  (if negb (typesEqual (TypeDef_Type v) (TypeDef_Type v2))
   then [NewDeclChange name TypeDefType
           [TypeChanged (TypeDef_Type v) (TypeDef_Type v2)]] else []).

(** The result of a differ whose first loop appends [emit]: the rounds of
    the first loop in the order [o1], then the additions in the order [o2]. *)
Definition diffShape {A : Type} (typ : DeclType)
  (emit : string → A → option A → list Change)
  (prevIdx currentIdx : gmap string A) (o1 o2 : list string) : list Change :=
  (o1 ≫= λ name,
     from_option (λ v, emit name v (currentIdx !! name)) [] (prevIdx !! name)) ++
  (o2 ≫= λ name,
     if decide (is_Some (currentIdx !! name) ∧ name ∉ dom prevIdx)
     then [NewDeclChange name typ [Added]] else []).

(** Every change [emit] produces is a [DeclChange] of the name and the
    category of the round. *)
Definition emit_named {A : Type} (typ : DeclType)
  (emit : string → A → option A → list Change) : Prop :=
  ∀ name v o c, c ∈ emit name v o → declName c = Some name ∧ declKind c = Some typ.

(** What [Diff] appends for one path of [prev], and for one path of
    [current]. *)
Definition pathRound (s : Sched) (currentPkgs : gmap string Package)
  (path : string) (p1 : Package) : list PackageChanges :=
  match currentPkgs !! path with
  | None =>
      [NewPackageChanges (Package_Name p1) (Package_Path p1)
         [NewDeclChange (Package_Name p1) PackageType [Removed]]]
  | Some p2 => [packageDiff (sched_pkg s path) p2 p1]
  end.

Definition pathAdded (prevPkgs : gmap string Package) (path : string)
  (p : Package) : list PackageChanges :=
  if decide (path ∈ dom prevPkgs) then []
  else [NewPackageChanges (Package_Name p) (Package_Path p)
          [NewDeclChange (Package_Name p) PackageType [Added]]].

(** A differ for the category [typ], whose entries are keyed by [key],
    reports a name that only [current] has as exactly one change,
    [DeclChange name typ [Added]], which is not breaking. *)
Definition reports_added {A : Type} (typ : DeclType) (key : A → string)
  (differ : list string → list string → list A → list A → list Change) : Prop :=
  ∀ o1 o2 prev current name,
    range_ok (index key prev) o1 → range_ok (index key current) o2 →
    name ∈ key <$> current → name ∉ key <$> prev →
    changesFor name (differ o1 o2 prev current) = [DeclChange name typ [Added]]
    ∧ IsBreaking (DeclChange name typ [Added]) = false.



(** The name of [v] parses as a semantic version. *)
Definition parses (L : SemverLib) (v : Version) : Prop :=
  is_Some (semver_NewVersion L (Version_Name v)).

(** ** Example inputs *)

(** Two snapshots used as a running example: package [x/b] loses a variable
    and package [x/a] is new. *)
Definition exampleCurrent : API :=
  [ mkPackage "a" "x/a" [] [] [mkFunc "F" [] []] [] [] [];
    mkPackage "b" "x/b" [] [] [] [] [] [] ].

Definition examplePrev : API :=
  [ mkPackage "b" "x/b" [mkVar "V" None] [] [] [] [] [] ].

Definition exampleSched : Sched :=
  mkSched ["x/b"] ["x/b"; "x/a"]
    (λ _ typ, if decide (typ = VarType) then ([], ["V"]) else ([], [])).



Definition oneVar : API :=
  [ mkPackage "p" "x/p" [mkVar "X" (Some (TBasic "int"))] [] [] [] [] [] ].

Definition oneVarSched : Sched :=
  mkSched ["x/p"] ["x/p"]
    (λ _ typ, if decide (typ = VarType) then (["X"], ["X"]) else ([], [])).

(** Package [x/p] gains the function [G]. *)
Definition gainsG_current : API :=
  [ mkPackage "p" "x/p" [] [] [mkFunc "G" [] []] [] [] [] ].

Definition gainsG_prev : API :=
  [ mkPackage "p" "x/p" [] [] [] [] [] [] ].

Definition gainsG_sched : Sched :=
  mkSched ["x/p"] ["x/p"]
    (λ _ typ, if decide (typ = FuncType) then (["G"], []) else ([], [])).

(** A small semver library and repository to run [Versions] on: three
    names parse, and the tag [v1.2.0] does not point to a commit. *)
Definition toySemver : SemverLib :=
  mkSemverLib nat
    (λ s, if String.eqb s "v1.0.0" then Some 100%nat
          else if String.eqb s "v1.2.0" then Some 120%nat
          else if String.eqb s "v2.0.0" then Some 200%nat
          else None)
    Nat.ltb.

Definition toyRepository : Repository :=
  mkRepository (HeadAt [Byte.x09])
    (inr [ NextTag (mkTag "v2.0.0" [Byte.x02]);
           NextTag (mkTag "notes" [Byte.x03]);
           NextTag (mkTag "v1.2.0" [Byte.x04]);
           NextTag (mkTag "v1.0.0" [Byte.x01]) ])
    (λ h, match h with [Byte.x04] => ErrObjectNotFound | _ => CommitFound end).

Definition toyOpen (path : string) : string + Repository :=
  if String.eqb path "repo" then inr toyRepository
  else inl "repository does not exist".

(** ** Vocabulary of the further properties *)

(** The entries of a result of [Diff] that are about the package [path]. *)
Definition entriesFor (path : string) (l : list PackageChanges)
  : list PackageChanges :=
  filter (λ pc, PC_Path pc = path) l.

(** A differ for the category [typ] reports a name that only [prev] has as
    exactly one change, [DeclChange name typ [Removed]], which is breaking. *)
Definition reports_removed {A : Type} (typ : DeclType) (key : A → string)
  (differ : list string → list string → list A → list A → list Change) : Prop :=
  ∀ o1 o2 prev current name,
    range_ok (index key prev) o1 → range_ok (index key current) o2 →
    name ∈ key <$> prev → name ∉ key <$> current →
    changesFor name (differ o1 o2 prev current) = [DeclChange name typ [Removed]]
    ∧ IsBreaking (DeclChange name typ [Removed]) = true.

(** Every change of a differ is a [DeclChange] of the category [typ] whose
    name is the name of an entry of [prev] or of [current]. *)
Definition names_its_inputs {A : Type} (typ : DeclType) (key : A → string)
  (differ : list string → list string → list A → list A → list Change) : Prop :=
  ∀ o1 o2 prev current,
    range_ok (index key prev) o1 → range_ok (index key current) o2 →
    Forall (λ c, ∃ name cs, c = DeclChange name typ cs
                            ∧ (name ∈ key <$> prev ∨ name ∈ key <$> current))
      (differ o1 o2 prev current).

(** A differ reports a breaking change exactly when a name of [prev] is
    missing from [current]. *)
Definition breaks_on_removal_only {A : Type} (key : A → string)
  (differ : list string → list string → list A → list A → list Change) : Prop :=
  ∀ o1 o2 prev current,
    range_ok (index key prev) o1 → range_ok (index key current) o2 →
    existsb IsBreaking (differ o1 o2 prev current) = true ↔
    ∃ name, name ∈ key <$> prev ∧ name ∉ key <$> current.

(** A differ reports nothing when both inputs are the same list. *)
Definition silent_on_itself {A : Type} (key : A → string)
  (differ : list string → list string → list A → list A → list Change) : Prop :=
  ∀ o1 o2 xs,
    range_ok (index key xs) o1 → range_ok (index key xs) o2 →
    differ o1 o2 xs xs = [].

(** Some change of some package of a result of [Diff] is breaking. *)
Definition anyBreaking (l : APIChanges) : bool :=
  existsb (λ pc, existsb IsBreaking (PC_Changes pc)) l.

(** The changes of a list that are about the declaration [name] of the
    category [typ]. *)
Definition changesOf (typ : DeclType) (name : string) (cs : list Change)
  : list Change :=
  filter (λ c, declKind c = Some typ ∧ declName c = Some name) cs.

(** [packageDiff] reports a name that, in the category [typ] read by
    [field], only its argument [current] has as exactly [Added]. *)
Definition package_reports_added {A : Type} (typ : DeclType) (key : A → string)
  (field : Package → list A) : Prop :=
  ∀ po prev current name,
    pkgOrd_ok po prev current →
    name ∈ key <$> field current → name ∉ key <$> field prev →
    changesOf typ name (PC_Changes (packageDiff po prev current)) =
    [DeclChange name typ [Added]].

(** [packageDiff] reports a name that, in the category [typ] read by
    [field], only its argument [prev] has as exactly [Removed]. *)
Definition package_reports_removed {A : Type} (typ : DeclType) (key : A → string)
  (field : Package → list A) : Prop :=
  ∀ po prev current name,
    pkgOrd_ok po prev current →
    name ∈ key <$> field prev → name ∉ key <$> field current →
    changesOf typ name (PC_Changes (packageDiff po prev current)) =
    [DeclChange name typ [Removed]].

(** For a package both snapshots have, [Diff] reports a name that, in the
    category [typ] read by [field], only the package of [current] has as
    [Removed], and a name only the package of [prev] has as [Added]. *)
Definition diff_exchanges {A : Type} (typ : DeclType) (key : A → string)
  (field : Package → list A) : Prop :=
  ∀ s current prev path p1 p2 name,
    sched_ok s current prev →
    packagesIndex prev !! path = Some p1 →
    packagesIndex current !! path = Some p2 →
    ∃ e, entriesFor path (Diff s current prev) = [e]
         ∧ (name ∈ key <$> field p2 → name ∉ key <$> field p1 →
            changesOf typ name (PC_Changes e) = [DeclChange name typ [Removed]])
         ∧ (name ∈ key <$> field p1 → name ∉ key <$> field p2 →
            changesOf typ name (PC_Changes e) = [DeclChange name typ [Added]]).

(** The index built by [idx] stores every entry under its own name, holds
    only entries of the slice, and has a name exactly when the slice has an
    entry of that name. *)
Definition keyed_by_name {A : Type} (key : A → string)
  (idx : list A → gmap string A) : Prop :=
  (∀ xs name x, idx xs !! name = Some x → key x = name ∧ x ∈ xs)
  ∧ (∀ xs name, idx xs !! name = None ↔ name ∉ key <$> xs).

(** On a slice without two entries of one name the index built by [idx]
    finds every entry under its name and has as many keys as the slice has
    entries. *)
Definition finds_all_when_unique {A : Type} (key : A → string)
  (idx : list A → gmap string A) : Prop :=
  ∀ xs, NoDup (key <$> xs) →
        (∀ x, x ∈ xs → idx xs !! key x = Some x) ∧ size (idx xs) = length xs.

(** No [String] call inside the rendering of [c] panics: no argument or
    result change of [c] has a nil type, and no change of another dynamic
    type in it panics. *)
Fixpoint renders (c : Change) : bool :=
  match c with
  | DeclChange _ _ cs | FieldChanged _ _ cs => forallb renders cs
  | ArgumentChanged _ _ typ cs | ResultChanged _ typ cs =>
      bool_decide (is_Some typ) && forallb renders cs
  | OtherChange rendering => bool_decide (is_Some rendering)
  | _ => true
  end.

(** [c] is a [DeclChange] with a single child, one of [Removed], [Added],
    [TypeChanged] and [ValueChanged]. *)
Definition isFlat (c : Change) : bool :=
  match c with
  | DeclChange _ _ [Removed]
  | DeclChange _ _ [Added]
  | DeclChange _ _ [TypeChanged _ _]
  | DeclChange _ _ [ValueChanged _ _] => true
  | _ => false
  end.

(** Every change [emit] produces is flat. *)
Definition emit_flat {A : Type} (emit : string → A → option A → list Change)
  : Prop :=
  ∀ name v o c, c ∈ emit name v o → isFlat c = true.

(** *** Introspection

    [packageFromGoPackage] reads a type-checked package through [go/types],
    which is outside this repository.  A package, an object of its scope
    and a function are what their methods return. *)

(** A [*types.Var] of a signature or of a struct: [Name()] and [Type()]. *)
Record GoVar := mkGoVar { GoVar_Name : string; GoVar_Type : TypeI }.

(** A [*types.Func]: [Name()], and the parameters and results of the
    signature that [Type()] returns. *)
Record GoFunc := mkGoFunc
  { GoFunc_Name : string; GoFunc_Params : list GoVar; GoFunc_Results : list GoVar }.

(** What the type switch on [obj.Type()] of a type name distinguishes: an
    interface with its methods, a struct with its fields and the method sets
    of the type and of the pointer to it, or any other type. *)
Inductive GoDeclaredType :=
| IsInterface (methods : list GoFunc)
| IsStruct (fields : list GoVar) (methods pointerMethods : list GoFunc)
| IsOther (t : TypeI).

(** An object of a scope, by its dynamic type; [GoOther] is an object of
    any further type.  A constant carries [Val().ExactString()]. *)
Inductive GoObject :=
| GoFuncObj (f : GoFunc)
| GoTypeName (name : string) (isAlias : bool) (t : GoDeclaredType)
| GoVarObj (name : string) (t : TypeI)
| GoConst (name : string) (t : TypeI) (exactString : string)
| GoOther (name : string).

Definition GoObject_Name (obj : GoObject) : string :=
  match obj with
  | GoFuncObj f => GoFunc_Name f
  | GoTypeName name _ _ => name
  | GoVarObj name _ => name
  | GoConst name _ _ => name
  | GoOther name => name
  end.

(** A [*types.Package]: [Name()], [Path()], and the objects
    [Scope().Lookup(name)] for the names of [Scope().Names()], in the order
    of the names. *)
Record GoPackage := mkGoPackage
  { GoPackage_Name : string;
    GoPackage_Path : string;
    GoPackage_Scope : list GoObject }.

Definition funcFromGoFunc (obj : GoFunc) : Func :=
  let args := GoVar_Type <$> GoFunc_Params obj in
  let results := GoVar_Type <$> GoFunc_Results obj in
  mkFunc (GoFunc_Name obj) args results.

(** One round of the loop of [packageFromGoPackage] over the names of the
    scope; [exported] is [obj.Exported()] as a function of the name. *)
Definition packageFromGoPackage_round (exported : string → bool)
  (pkg : Package) (obj : GoObject) : Package :=
  if negb (exported (GoObject_Name obj)) then pkg
  else
    match obj with
    | GoFuncObj f =>
        mkPackage (Package_Name pkg) (Package_Path pkg) (Package_Vars pkg)
          (Package_Consts pkg) (Package_Funcs pkg ++ [funcFromGoFunc f])
          (Package_Structs pkg) (Package_Interfaces pkg) (Package_Types pkg)
    | GoTypeName name isAlias (IsInterface methods) =>
        let iface := mkInterface name (funcFromGoFunc <$> methods) in
        mkPackage (Package_Name pkg) (Package_Path pkg) (Package_Vars pkg)
          (Package_Consts pkg) (Package_Funcs pkg)
          (Package_Structs pkg) (Package_Interfaces pkg ++ [iface])
          (Package_Types pkg)
    | GoTypeName name isAlias (IsStruct fields methods pointerMethods) =>
        let s := mkStruct name
                   ((λ f, mkField (GoVar_Name f) (GoVar_Type f)) <$> fields)
                   (funcFromGoFunc <$> (methods ++ pointerMethods)) in
        mkPackage (Package_Name pkg) (Package_Path pkg) (Package_Vars pkg)
          (Package_Consts pkg) (Package_Funcs pkg)
          (Package_Structs pkg ++ [s]) (Package_Interfaces pkg)
          (Package_Types pkg)
    | GoTypeName name isAlias (IsOther t) =>
        mkPackage (Package_Name pkg) (Package_Path pkg) (Package_Vars pkg)
          (Package_Consts pkg) (Package_Funcs pkg)
          (Package_Structs pkg) (Package_Interfaces pkg)
          (Package_Types pkg ++ [mkTypeDef name t isAlias])
    | GoVarObj name t =>
        mkPackage (Package_Name pkg) (Package_Path pkg)
          (Package_Vars pkg ++ [mkVar name t])
          (Package_Consts pkg) (Package_Funcs pkg)
          (Package_Structs pkg) (Package_Interfaces pkg) (Package_Types pkg)
    | GoConst name t exactString =>
        mkPackage (Package_Name pkg) (Package_Path pkg) (Package_Vars pkg)
          (Package_Consts pkg ++ [mkConst name t exactString])
          (Package_Funcs pkg)
          (Package_Structs pkg) (Package_Interfaces pkg) (Package_Types pkg)
    | GoOther _ => pkg
    end.

(** [packageFromGoPackage]: the package and the error, which is always
    nil. *)
Definition packageFromGoPackage (exported : string → bool) (gopkg : GoPackage)
  : Package * option string :=
  let pkg := mkPackage (GoPackage_Name gopkg) (GoPackage_Path gopkg)
               [] [] [] [] [] [] in
  (foldl (packageFromGoPackage_round exported) pkg (GoPackage_Scope gopkg), None).

(** The loop of [ProjectAPI] over the loaded packages. *)
Fixpoint ProjectAPI_loop (exported : string → bool) (packages : list GoPackage)
  (api : API) : Outcome API :=
  match packages with
  | [] => Ok api
  | pkg :: packages =>
      match packageFromGoPackage exported pkg with
      | (_, Some err) =>
          Err ("error converting from Go package to internal package: " +:+ err)
      | (p, None) => ProjectAPI_loop exported packages (api ++ [p])
      end
  end.

(** [ProjectAPI]; [projectPackages] is what the function of that name,
    which walks the file system and loads the packages, returns for a
    path. *)
Definition ProjectAPI (exported : string → bool)
  (projectPackages : string → string + list GoPackage) (path : string)
  : Outcome API :=
  match projectPackages path with
  | inl err => Err ("error getting project packages: " +:+ err)
  | inr packages => ProjectAPI_loop exported packages []
  end.

(** [VersionAPI]. *)
Definition VersionAPI (path : string) (version : Version) : Outcome API :=
  Err "not implemented".

(** The declarations of one kind among the exported objects of a scope,
    in the order of the scope. *)
Definition exportedObjects {B : Type} (exported : string → bool)
  (pick : GoObject → option B) (scope : list GoObject) : list B :=
  omap (λ obj, if exported (GoObject_Name obj) then pick obj else None) scope.

Definition pickVar (obj : GoObject) : option Var :=
  match obj with GoVarObj name t => Some (mkVar name t) | _ => None end.

Definition pickConst (obj : GoObject) : option Const :=
  match obj with
  | GoConst name t exactString => Some (mkConst name t exactString)
  | _ => None
  end.

Definition pickFunc (obj : GoObject) : option Func :=
  match obj with GoFuncObj f => Some (funcFromGoFunc f) | _ => None end.

Definition pickStruct (obj : GoObject) : option Struct :=
  match obj with
  | GoTypeName name _ (IsStruct fields methods pointerMethods) =>
      Some (mkStruct name
              ((λ f, mkField (GoVar_Name f) (GoVar_Type f)) <$> fields)
              (funcFromGoFunc <$> (methods ++ pointerMethods)))
  | _ => None
  end.

Definition pickInterface (obj : GoObject) : option Interface :=
  match obj with
  | GoTypeName name _ (IsInterface methods) =>
      Some (mkInterface name (funcFromGoFunc <$> methods))
  | _ => None
  end.

Definition pickTypeDef (obj : GoObject) : option TypeDef :=
  match obj with
  | GoTypeName name isAlias (IsOther t) => Some (mkTypeDef name t isAlias)
  | _ => None
  end.

(** All declaration names of a package, category after category. *)
Definition declarationNames (p : Package) : list string :=
  (Var_Name <$> Package_Vars p) ++ (Const_Name <$> Package_Consts p)
  ++ (Func_Name <$> Package_Funcs p) ++ (Struct_Name <$> Package_Structs p)
  ++ (Interface_Name <$> Package_Interfaces p)
  ++ (TypeDef_Name <$> Package_Types p).

(** The message of the failure of one step of the tag iteration, if it
    fails. *)
Definition stepError (r : Repository) (step : IterStep) : option string :=
  match step with
  | NextFailed err => Some ("error getting next tag: " +:+ err)
  | NextTag tag =>
      match Repo_CommitObject r (Tag_Hash tag) with
      | CommitFailed err => Some ("unknown error getting commit: " +:+ err)
      | _ => None
      end
  end.

(** [v] is an entry [Versions] sorts: the sentinel, or a version whose
    name parses. *)
Definition sortable (L : SemverLib) (v : Version) : Prop :=
  Version_Name v = "HEAD" ∨ parses L v.

(** [obj] is of one of the four kinds [packageFromGoPackage] reads. *)
Definition isDeclaration (obj : GoObject) : bool :=
  match obj with GoOther _ => false | _ => true end.

(** The objects of a scope [packageFromGoPackage] turns into declarations. *)
Definition declaredObjects (exported : string → bool) (scope : list GoObject)
  : list GoObject :=
  filter (λ obj, exported (GoObject_Name obj) = true ∧ isDeclaration obj = true)
    scope.

(** A repository whose tag iterator fails at its second step. *)
Definition failingRepository : Repository :=
  mkRepository (HeadAt [Byte.x09])
    (inr [ NextTag (mkTag "v1.0.0" [Byte.x01]);
           NextFailed "boom";
           NextTag (mkTag "v2.0.0" [Byte.x02]) ])
    (λ _, CommitFound).

Definition failingOpen (path : string) : string + Repository :=
  inr failingRepository.

(** * Properties *)

(** ** Loops over a map *)

Section range_lemmas.
Context {V : Type}.
Implicit Types (m : gmap string V) (o : list string).

Lemma range_nil {S} m (body : string → V → S → S) s : range m [] body s = s.
Proof. reflexivity. Qed.

Lemma range_cons {S} m k o (body : string → V → S → S) s :
  range m (k :: o) body s =
  range m o body (match m !! k with Some v => body k v s | None => s end).
Proof. reflexivity. Qed.

Lemma range_ok_elem m o k : range_ok m o → k ∈ o ↔ is_Some (m !! k).
Proof.
  intros [_ Hdom]. rewrite <- elem_of_dom, <- Hdom. set_solver.
Qed.

Lemma range_ok_perm m o o' : range_ok m o → range_ok m o' → o ≡ₚ o'.
Proof.
  intros H H'. apply NoDup_Permutation; [apply H | apply H' |].
  intros k. by rewrite (range_ok_elem m o k H), (range_ok_elem m o' k H').
Qed.

Lemma range_ok_elements m : range_ok m (elements (dom m)).
Proof.
  split; [apply NoDup_elements |].
  apply set_eq. intros k. rewrite elem_of_list_to_set. apply elem_of_elements.
Qed.

(** What the first loop of a differ computes, when each round appends the
    changes [emit k v] and marks [k] as seen. *)
Lemma range_emit {C} m (emit : string → V → list C)
    (body : string → V → list C * gset string → list C * gset string) o :
  (∀ k v cs seen, body k v (cs, seen) = (cs ++ emit k v, {[k]} ∪ seen)) →
  ∀ cs seen,
    range m o body (cs, seen) =
    (cs ++ (o ≫= λ k, from_option (emit k) [] (m !! k)),
     list_to_set (filter (λ k, is_Some (m !! k)) o) ∪ seen).
Proof.
  intros Hbody. induction o as [|k o IH]; intros cs seen.
  - cbn. rewrite app_nil_r. f_equal. set_solver.
  - rewrite range_cons. destruct (m !! k) as [v|] eqn:Hk.
    + rewrite Hbody, IH. rewrite filter_cons_True by (rewrite Hk; eauto).
      cbn. rewrite Hk. cbn. rewrite <- app_assoc. f_equal. set_solver.
    + rewrite IH. rewrite filter_cons_False by (rewrite Hk; apply is_Some_None).
      cbn. rewrite Hk. reflexivity.
Qed.

Lemma seen_range_ok m o :
  range_ok m o →
  list_to_set (filter (λ k, is_Some (m !! k)) o) ∪ ∅ =@{gset string} dom m.
Proof.
  intros Hok. apply set_eq. intros k.
  rewrite elem_of_union, elem_of_list_to_set, list_elem_of_filter, elem_of_dom.
  rewrite (range_ok_elem m o k Hok). set_solver.
Qed.

(** The second loop of a differ. *)
Lemma addedLoop_spec typ m o seen cs :
  addedLoop typ m o seen cs =
  cs ++ (o ≫= λ name,
           if decide (is_Some (m !! name) ∧ name ∉ seen)
           then [NewDeclChange name typ [Added]] else []).
Proof.
  unfold addedLoop. revert cs. induction o as [|k o IH]; intros cs.
  - cbn. by rewrite app_nil_r.
  - rewrite range_cons. cbn. destruct (m !! k) as [v|] eqn:Hk.
    + rewrite IH. destruct (decide (k ∈ seen)).
      * rewrite decide_False by tauto. reflexivity.
      * rewrite decide_True by eauto. by rewrite <- app_assoc.
    + rewrite IH. rewrite decide_False; [done|].
      intros [[] _]. discriminate.
Qed.
End range_lemmas.

(** ** The six differs, loop by loop *)

Ltac differ_shape emit :=
  let Hok := fresh "Hok" in
  intros Hok;
  match goal with
  | |- context [range ?m ?o ?body ([], ∅)] =>
      rewrite (range_emit m (λ k v, emit k v) body o);
      [ rewrite addedLoop_spec, (seen_range_ok _ _ Hok); reflexivity
      | intros k v cs seen;
        unfold comma_ok, constEmit, varEmit, removedEmit, typeDefEmit;
        repeat (case_match; simplify_eq/=);
        rewrite ?app_nil_r, <- ?app_assoc; reflexivity ]
  end.

Lemma constsDiff_shape o1 o2 prev current :
  range_ok (constsIndex prev) o1 →
  constsDiff o1 o2 prev current =
  diffShape ConstType constEmit (constsIndex prev) (constsIndex current) o1 o2.
Proof.
  unfold constsDiff, diffShape.
  differ_shape (λ k v, constEmit k v (constsIndex current !! k)).
Qed.

Lemma varsDiff_shape o1 o2 prev current :
  range_ok (varsIndex prev) o1 →
  varsDiff o1 o2 prev current =
  diffShape VarType varEmit (varsIndex prev) (varsIndex current) o1 o2.
Proof.
  unfold varsDiff, diffShape.
  differ_shape (λ k v, varEmit k v (varsIndex current !! k)).
Qed.

Lemma funcsDiff_shape o1 o2 prev current :
  range_ok (funcsIndex prev) o1 →
  funcsDiff o1 o2 prev current =
  diffShape FuncType (removedEmit FuncType)
    (funcsIndex prev) (funcsIndex current) o1 o2.
Proof.
  unfold funcsDiff, diffShape.
  differ_shape (λ k v, removedEmit FuncType k v (funcsIndex current !! k)).
Qed.

Lemma structsDiff_shape o1 o2 prev current :
  range_ok (structsIndex prev) o1 →
  structsDiff o1 o2 prev current =
  diffShape StructType (removedEmit StructType)
    (structsIndex prev) (structsIndex current) o1 o2.
Proof.
  unfold structsDiff, diffShape.
  differ_shape (λ k v, removedEmit StructType k v (structsIndex current !! k)).
Qed.

Lemma interfacesDiff_shape o1 o2 prev current :
  range_ok (interfacesIndex prev) o1 →
  interfacesDiff o1 o2 prev current =
  diffShape InterfaceType (removedEmit InterfaceType)
    (interfacesIndex prev) (interfacesIndex current) o1 o2.
Proof.
  unfold interfacesDiff, diffShape.
  differ_shape
    (λ k v, removedEmit InterfaceType k v (interfacesIndex current !! k)).
Qed.

Lemma typesDiff_shape o1 o2 prev current :
  range_ok (typesIndex prev) o1 →
  typesDiff o1 o2 prev current =
  diffShape TypeDefType typeDefEmit (typesIndex prev) (typesIndex current) o1 o2.
Proof.
  unfold typesDiff, diffShape.
  differ_shape (λ k v, typeDefEmit k v (typesIndex current !! k)).
Qed.

(** ** What a differ reports about one name *)

Lemma constEmit_named : emit_named ConstType constEmit.
Proof.
  intros name v o c. unfold constEmit, typesEqual.
  destruct o; repeat case_match; cbn; set_solver.
Qed.

Lemma varEmit_named : emit_named VarType varEmit.
Proof.
  intros name v o c. unfold varEmit, typesEqual.
  destruct o; cbn; set_solver.
Qed.

Lemma removedEmit_named {A} typ : emit_named typ (@removedEmit A typ).
Proof. intros name v o c. unfold removedEmit. destruct o; set_solver. Qed.

Lemma typeDefEmit_named : emit_named TypeDefType typeDefEmit.
Proof.
  intros name v o c. unfold typeDefEmit, typesEqual.
  destruct o; cbn; set_solver.
Qed.

Lemma changesFor_app name cs1 cs2 :
  changesFor name (cs1 ++ cs2) = changesFor name cs1 ++ changesFor name cs2.
Proof. apply filter_app. Qed.

Lemma changesFor_all name cs :
  (∀ c, c ∈ cs → declName c = Some name) → changesFor name cs = cs.
Proof.
  induction cs as [|c cs IH]; intros H; [done|].
  unfold changesFor. rewrite filter_cons_True by (apply H; left).
  f_equal. apply IH. intros c' Hc'. apply H. by right.
Qed.

Lemma changesFor_none name cs :
  (∀ c, c ∈ cs → declName c ≠ Some name) → changesFor name cs = [].
Proof.
  induction cs as [|c cs IH]; intros H; [done|].
  unfold changesFor. rewrite filter_cons_False by (apply H; left).
  apply IH. intros c' Hc'. apply H. by right.
Qed.

(** In a loop that visits every key once and only emits changes named after
    the key of the round, the changes about [name] are those of its round. *)
Lemma changesFor_bind (g : string → list Change) o name :
  (∀ k c, c ∈ g k → declName c = Some k) →
  NoDup o →
  changesFor name (o ≫= g) = if decide (name ∈ o) then g name else [].
Proof.
  intros Hg. induction 1 as [|k o Hk Hnd IH]; [done|].
  rewrite bind_cons, changesFor_app, IH.
  destruct (decide (k = name)) as [->|Hne].
  - rewrite (decide_True (P := name ∈ name :: o)) by left.
    rewrite (decide_False (P := name ∈ o)) by done.
    rewrite app_nil_r. apply changesFor_all. intros c. apply Hg.
  - rewrite changesFor_none.
    + cbn. destruct (decide (name ∈ o)).
      * rewrite decide_True; [done | by right].
      * rewrite decide_False; [done|]. rewrite elem_of_cons. naive_solver.
    + intros c Hc. rewrite (Hg _ _ Hc). congruence.
Qed.

Section diffShape_lemmas.
Context {A : Type} (typ : DeclType) (emit : string → A → option A → list Change).
Context (Hemit : emit_named typ emit).
Implicit Types (prevIdx currentIdx : gmap string A).

(** The changes a differ reports about [name]: the round of the first
    loop when [prev] has the name, and an addition when only [current]
    has it. *)
Lemma diffShape_changesFor prevIdx currentIdx o1 o2 name :
  range_ok prevIdx o1 → range_ok currentIdx o2 →
  changesFor name (diffShape typ emit prevIdx currentIdx o1 o2) =
  match prevIdx !! name with
  | Some v => emit name v (currentIdx !! name)
  | None =>
      if currentIdx !! name is Some _
      then [NewDeclChange name typ [Added]] else []
  end.
Proof.
  intros Hok1 Hok2. unfold diffShape.
  rewrite changesFor_app, !changesFor_bind; try apply Hok1; try apply Hok2.
  - pose proof (range_ok_elem _ _ name Hok1) as H1.
    pose proof (range_ok_elem _ _ name Hok2) as H2.
    destruct (prevIdx !! name) as [v|] eqn:Hp.
    + rewrite (decide_True (P := name ∈ o1)) by (apply H1; eauto). cbn.
      rewrite (decide_False (P := _ ∧ _))
        by (intros [_ []]; apply elem_of_dom; eauto).
      destruct (decide (name ∈ o2)); by rewrite app_nil_r.
    + rewrite (decide_False (P := name ∈ o1))
        by (rewrite H1; apply is_Some_None).
      cbn. destruct (currentIdx !! name) as [v2|] eqn:Hc.
      * rewrite (decide_True (P := name ∈ o2)) by (apply H2; eauto).
        rewrite decide_True; [done|].
        split; [eauto | by apply not_elem_of_dom].
      * rewrite (decide_False (P := name ∈ o2)); [done|].
        rewrite H2. apply is_Some_None.
  - intros k c. case_decide; set_solver.
  - intros k c. destruct (prevIdx !! k); cbn; [|set_solver].
    intros Hc. by apply Hemit in Hc as [? _].
Qed.

(** Every change of a differ is a [DeclChange] of the differ's category. *)
Lemma diffShape_kind prevIdx currentIdx o1 o2 :
  Forall (λ c, declKind c = Some typ) (diffShape typ emit prevIdx currentIdx o1 o2).
Proof.
  unfold diffShape. rewrite Forall_app, !Forall_forall. split; intros c.
  - rewrite list_elem_of_bind. intros (k & Hc & _).
    destruct (prevIdx !! k); cbn in Hc; [|set_solver].
    by apply Hemit in Hc as [_ ?].
  - rewrite list_elem_of_bind. intros (k & Hc & _).
    case_decide; set_solver.
Qed.

(** Two visiting orders give the same changes up to their order. *)
Lemma diffShape_perm prevIdx currentIdx o1 o2 o1' o2' :
  range_ok prevIdx o1 → range_ok prevIdx o1' →
  range_ok currentIdx o2 → range_ok currentIdx o2' →
  diffShape typ emit prevIdx currentIdx o1 o2 ≡ₚ
  diffShape typ emit prevIdx currentIdx o1' o2'.
Proof.
  intros H1 H1' H2 H2'. unfold diffShape.
  by rewrite (range_ok_perm _ _ _ H1 H1'), (range_ok_perm _ _ _ H2 H2').
Qed.
End diffShape_lemmas.

(** ** The name-keyed indices *)

Section index_lemmas.
Context {A : Type} (key : A → string).
Implicit Types (xs : list A) (m : gmap string A).

Lemma index_snoc xs x : index key (xs ++ [x]) = <[key x := x]> (index key xs).
Proof. unfold index. by rewrite foldl_app. Qed.

(** A name is mapped to the last entry of the slice that carries it. *)
Lemma index_lookup xs name :
  index key xs !! name = last (filter (λ x, key x = name) xs).
Proof.
  induction xs as [|x xs IH] using rev_ind; [done|].
  rewrite index_snoc, filter_app, lookup_insert.
  destruct (decide (key x = name)) as [Heq|Hne].
  - rewrite filter_cons_True, filter_nil by done. by rewrite last_snoc.
  - rewrite filter_cons_False, filter_nil by done. by rewrite app_nil_r.
Qed.

Lemma index_dom xs : dom (index key xs) = list_to_set (key <$> xs).
Proof.
  induction xs as [|x xs IH] using rev_ind; [apply dom_empty_L|].
  rewrite index_snoc, dom_insert_L, IH, fmap_app, list_to_set_app_L. cbn.
  set_solver.
Qed.

Lemma index_is_Some xs name :
  is_Some (index key xs !! name) ↔ name ∈ key <$> xs.
Proof. by rewrite <- elem_of_dom, index_dom, elem_of_list_to_set. Qed.

Lemma index_None xs name :
  index key xs !! name = None ↔ name ∉ key <$> xs.
Proof. by rewrite <- index_is_Some, eq_None_not_Some. Qed.

Lemma index_lookup_key xs name x : index key xs !! name = Some x → key x = name.
Proof.
  rewrite index_lookup. intros Hl.
  assert (x ∈ filter (λ x, key x = name) xs) as Hin.
  { apply last_Some in Hl as [l' ->]. set_solver. }
  by apply list_elem_of_filter in Hin as [? _].
Qed.


End index_lemmas.

(** Closes [range_ok] for a concrete index and a concrete order. *)
Ltac range_ok_concrete :=
  refine (bool_decide_unpack _ _); vm_compute; exact I.

(** ** The type identity predicate *)

Lemma typesEqual_false a b : typesEqual a b = false.
Proof. reflexivity. Qed.

Lemma typesEqual_sym a b : typesEqual a b = typesEqual b a.
Proof. reflexivity. Qed.

Lemma typesEqual_kinds a b : kindOf a ≠ kindOf b → typesEqual (Some a) (Some b) = false.
Proof. reflexivity. Qed.

(** C1, at the input where the claim fails: [typesEqual] is not reflexive;
    the descriptor [int] compared with itself is reported as different.
    (Symmetry and the answer on descriptors of different kinds hold, see
    [typesEqual_sym] and [typesEqual_kinds].) *)
Theorem typesEqual_int_int :
  typesEqual (Some (TBasic "int")) (Some (TBasic "int")) = false.
Proof. reflexivity. Qed.

(** ** The breaking-change classifier *)

Lemma IsBreaking_DeclChange name typ cs :
  IsBreaking (DeclChange name typ cs) = existsb IsBreaking cs.
Proof.
  cbn. induction cs as [|c cs IH]; [done|].
  cbn. rewrite IH. by destruct (IsBreaking c).
Qed.

Lemma IsBreaking_DeclChange_true name typ cs :
  IsBreaking (DeclChange name typ cs) = true ↔
  ∃ c, c ∈ cs ∧ IsBreaking c = true.
Proof.
  rewrite IsBreaking_DeclChange, existsb_exists.
  by setoid_rewrite list_elem_of_In.
Qed.

(** C4: [IsBreaking] is true exactly for [Removed], [PositionChanged],
    [TypeChanged], [FieldChanged], [ResultChanged], [ArgumentChanged], and
    for a [DeclChange] with a child for which [IsBreaking] is true; it is
    false for [Added], for [ValueChanged], and for a [DeclChange] all of
    whose children are non-breaking. *)
Theorem IsBreaking_spec :
  (∀ c, IsBreaking c = true ↔
     c = Removed
     ∨ (∃ from to, c = PositionChanged from to)
     ∨ (∃ from to, c = TypeChanged from to)
     ∨ (∃ pos name cs, c = FieldChanged pos name cs)
     ∨ (∃ pos typ cs, c = ResultChanged pos typ cs)
     ∨ (∃ pos name typ cs, c = ArgumentChanged pos name typ cs)
     ∨ (∃ name typ cs, c = DeclChange name typ cs
                        ∧ ∃ c', c' ∈ cs ∧ IsBreaking c' = true))
  ∧ IsBreaking Added = false
  ∧ (∀ from to, IsBreaking (ValueChanged from to) = false)
  ∧ (∀ name typ cs, (∀ c', c' ∈ cs → IsBreaking c' = false) →
       IsBreaking (DeclChange name typ cs) = false).
Proof.
  split; [|split; [done|split; [done|]]].
  - intros c. split.
    + intros Hc. destruct c; try discriminate Hc; eauto 12.
      apply IsBreaking_DeclChange_true in Hc. eauto 12.
    + intros [->|[(?&?&->)|[(?&?&->)|[(?&?&?&->)|[(?&?&?&->)|
               [(?&?&?&?&->)|(?&?&?&->&Hex)]]]]]]; try reflexivity.
      by apply IsBreaking_DeclChange_true.
  - intros name typ cs Hcs. apply not_true_is_false.
    intros (c' & Hin & Hb)%IsBreaking_DeclChange_true.
    rewrite (Hcs c' Hin) in Hb. discriminate.
Qed.

Lemma IsBreaking_spec_witness :
  IsBreaking (DeclChange "A" ConstType
                [Added; ValueChanged "1" "2"; DeclChange "B" VarType [Added]])
  = false.
Proof.
  apply (proj2 (proj2 (proj2 IsBreaking_spec))).
  intros c' Hc'. repeat (apply elem_of_cons in Hc' as [->|Hc']; [reflexivity|]).
  by apply elem_of_nil in Hc'.
Defined.

(** ** Additions *)

Lemma diffShape_added {A} typ (key : A → string) emit prev current o1 o2 name :
  emit_named typ emit →
  range_ok (index key prev) o1 → range_ok (index key current) o2 →
  name ∈ key <$> current → name ∉ key <$> prev →
  changesFor name (diffShape typ emit (index key prev) (index key current) o1 o2)
  = [DeclChange name typ [Added]].
Proof.
  intros Hemit Hok1 Hok2 Hcur Hprev.
  rewrite (diffShape_changesFor typ emit Hemit) by done.
  apply index_None in Hprev. apply index_is_Some in Hcur as [v Hv].
  by rewrite Hprev, Hv.
Qed.

(** Each of the six differs reports a name that its parameter [current]
    has and its parameter [prev] does not have as exactly
    [DeclChange name kind [Added]], and that change is not breaking. *)
Theorem addition_classification :
  reports_added ConstType Const_Name constsDiff
  ∧ reports_added VarType Var_Name varsDiff
  ∧ reports_added FuncType Func_Name funcsDiff
  ∧ reports_added StructType Struct_Name structsDiff
  ∧ reports_added InterfaceType Interface_Name interfacesDiff
  ∧ reports_added TypeDefType TypeDef_Name typesDiff.
Proof.
  repeat split; try reflexivity.
  - rewrite constsDiff_shape by done.
    apply diffShape_added; auto using constEmit_named.
  - rewrite varsDiff_shape by done.
    apply diffShape_added; auto using varEmit_named.
  - rewrite funcsDiff_shape by done.
    apply diffShape_added; auto using @removedEmit_named.
  - rewrite structsDiff_shape by done.
    apply diffShape_added; auto using @removedEmit_named.
  - rewrite interfacesDiff_shape by done.
    apply diffShape_added; auto using @removedEmit_named.
  - rewrite typesDiff_shape by done.
    apply diffShape_added; auto using typeDefEmit_named.
Qed.

Lemma addition_classification_witness :
  changesFor "G"
    (funcsDiff ["F"] ["G"; "F"]
       [mkFunc "F" [] []]
       [mkFunc "F" [] []; mkFunc "G" [Some (TBasic "int")] []])
  = [DeclChange "G" FuncType [Added]]
  ∧ IsBreaking (DeclChange "G" FuncType [Added]) = false.
Proof.
  apply (proj1 (proj2 (proj2 addition_classification))).
  - range_ok_concrete.
  - range_ok_concrete.
  - cbn. set_solver.
  - cbn. set_solver.
Defined.

(** ** Removals *)

(** Where the removal test is followed by nothing, or by an [else], a name
    only [prev] has is reported once. *)
Lemma varsDiff_removed o1 o2 prev current name :
  range_ok (varsIndex prev) o1 → range_ok (varsIndex current) o2 →
  name ∈ Var_Name <$> prev → name ∉ Var_Name <$> current →
  changesFor name (varsDiff o1 o2 prev current) = [DeclChange name VarType [Removed]].
Proof.
  intros Hok1 Hok2 [v Hv]%index_is_Some Hc%index_None.
  rewrite varsDiff_shape, (diffShape_changesFor _ _ varEmit_named) by done.
  unfold varsIndex in *. by rewrite Hv, Hc.
Qed.

Lemma removedEmit_removed {A} typ (key : A → string) prev current o1 o2 name :
  range_ok (index key prev) o1 → range_ok (index key current) o2 →
  name ∈ key <$> prev → name ∉ key <$> current →
  changesFor name
    (diffShape typ (removedEmit typ) (index key prev) (index key current) o1 o2)
  = [DeclChange name typ [Removed]].
Proof.
  intros Hok1 Hok2 [v Hv]%index_is_Some Hc%index_None.
  rewrite (diffShape_changesFor _ _ (removedEmit_named typ)) by done.
  by rewrite Hv, Hc.
Qed.

(** In [constsDiff] and [typesDiff] the comparisons run after the removal
    test as well, against the zero value of the missing entry. *)
Lemma constsDiff_removed o1 o2 prev current name v :
  range_ok (constsIndex prev) o1 → range_ok (constsIndex current) o2 →
  constsIndex prev !! name = Some v → name ∉ Const_Name <$> current →
  changesFor name (constsDiff o1 o2 prev current) =
  [ DeclChange name ConstType [Removed];
    DeclChange name ConstType [TypeChanged (Const_Type v) None] ] ++
  (if String.eqb (Const_Value v) ""
   then [] else [DeclChange name ConstType [ValueChanged (Const_Value v) ""]]).
Proof.
  intros Hok1 Hok2 Hv Hc%index_None.
  rewrite constsDiff_shape, (diffShape_changesFor _ _ constEmit_named) by done.
  unfold constsIndex in *. rewrite Hv, Hc. unfold constEmit. cbn.
  by destruct (String.eqb (Const_Value v) "").
Qed.

Lemma typesDiff_removed o1 o2 prev current name v :
  range_ok (typesIndex prev) o1 → range_ok (typesIndex current) o2 →
  typesIndex prev !! name = Some v → name ∉ TypeDef_Name <$> current →
  changesFor name (typesDiff o1 o2 prev current) =
  [ DeclChange name TypeDefType [Removed];
    DeclChange name TypeDefType [TypeChanged (TypeDef_Type v) None] ].
Proof.
  intros Hok1 Hok2 Hv Hc%index_None.
  rewrite typesDiff_shape, (diffShape_changesFor _ _ typeDefEmit_named) by done.
  unfold typesIndex in *. by rewrite Hv, Hc.
Qed.

(** C3, at the input where the claim fails: the constant [A] of type [int]
    and value [1] is in [prev] and not in [current]; [constsDiff] reports
    three changes for [A], the removal and two comparisons with the zero
    value.  [typesDiff] reports two for a removed type definition. *)
Theorem removal_reports_more :
  (range_ok (constsIndex [mkConst "A" (Some (TBasic "int")) "1"]) ["A"]
   ∧ range_ok (constsIndex []) []
   ∧ constsDiff ["A"] [] [mkConst "A" (Some (TBasic "int")) "1"] [] =
     [ DeclChange "A" ConstType [Removed];
       DeclChange "A" ConstType [TypeChanged (Some (TBasic "int")) None];
       DeclChange "A" ConstType [ValueChanged "1" ""] ])
  ∧ (range_ok (typesIndex [mkTypeDef "T" (Some (TBasic "int")) false]) ["T"]
     ∧ range_ok (typesIndex []) []
     ∧ typesDiff ["T"] [] [mkTypeDef "T" (Some (TBasic "int")) false] [] =
       [ DeclChange "T" TypeDefType [Removed];
         DeclChange "T" TypeDefType [TypeChanged (Some (TBasic "int")) None] ]).
Proof.
  repeat split; try range_ok_concrete; apply NoDup_nil_2 || by vm_compute.
Qed.

(** ** Constants *)

(** C5, at the input where the claim fails: the constant [A] keeps its type
    [int] and changes its value from [1] to [2]; [constsDiff] reports a
    [TypeChanged] from [int] to [int] before the [ValueChanged], and that
    first change is breaking. *)
Theorem value_change_reports_type_change :
  range_ok (constsIndex [mkConst "A" (Some (TBasic "int")) "1"]) ["A"]
  ∧ range_ok (constsIndex [mkConst "A" (Some (TBasic "int")) "2"]) ["A"]
  ∧ constsDiff ["A"] ["A"]
      [mkConst "A" (Some (TBasic "int")) "1"]
      [mkConst "A" (Some (TBasic "int")) "2"] =
    [ DeclChange "A" ConstType
        [TypeChanged (Some (TBasic "int")) (Some (TBasic "int"))];
      DeclChange "A" ConstType [ValueChanged "1" "2"] ]
  ∧ IsBreaking (DeclChange "A" ConstType
                  [TypeChanged (Some (TBasic "int")) (Some (TBasic "int"))])
    = true.
Proof. repeat split; try range_ok_concrete; by vm_compute. Qed.

(** ** Functions *)

(** A function both snapshots have is never reported, whatever its
    signatures. *)
Lemma funcsDiff_matched o1 o2 prev current name :
  range_ok (funcsIndex prev) o1 → range_ok (funcsIndex current) o2 →
  name ∈ Func_Name <$> prev → name ∈ Func_Name <$> current →
  changesFor name (funcsDiff o1 o2 prev current) = [].
Proof.
  intros Hok1 Hok2 [v Hv]%index_is_Some [v2 Hv2]%index_is_Some.
  rewrite funcsDiff_shape by done.
  rewrite (diffShape_changesFor _ _ (removedEmit_named FuncType)) by done.
  unfold funcsIndex in *. by rewrite Hv, Hv2.
Qed.

(** C7, at the input where the claim fails: [F] takes an [int] in [prev]
    and a [string] in [current], and returns an [error] only in [current];
    [funcsDiff] reports nothing. *)
Theorem funcsDiff_ignores_signatures :
  range_ok (funcsIndex [mkFunc "F" [Some (TBasic "int")] []]) ["F"]
  ∧ range_ok (funcsIndex [mkFunc "F" [Some (TBasic "string")]
                            [Some (TNamed "" "error")]]) ["F"]
  ∧ funcsDiff ["F"] ["F"]
      [mkFunc "F" [Some (TBasic "int")] []]
      [mkFunc "F" [Some (TBasic "string")] [Some (TNamed "" "error")]] = [].
Proof. repeat split; try range_ok_concrete; by vm_compute. Qed.

(** ** Packages *)

Lemma keysOf_ok {A} (key : A → string) xs : range_ok (index key xs) (keysOf key xs).
Proof. apply range_ok_elements. Qed.

Lemma canonicalPkgOrd_ok prev current :
  pkgOrd_ok (canonicalPkgOrd prev current) prev current.
Proof. repeat split; apply keysOf_ok. Qed.

(** Every pair of snapshots has a schedule. *)
Lemma canonicalSched_ok current prev :
  sched_ok (canonicalSched current prev) current prev.
Proof.
  split; [apply keysOf_ok | split; [apply keysOf_ok|]].
  intros path p1 p2 H1 H2. cbn. rewrite H1, H2. apply canonicalPkgOrd_ok.
Qed.

Lemma kinds_replicate typ cs :
  Forall (λ c, declKind c = Some typ) cs →
  declKind <$> cs = replicate (length cs) (Some typ).
Proof. induction 1 as [|c cs Hc _ IH]; [done|]. cbn. by rewrite Hc, IH. Qed.

(** One category of one package under two schedules. *)
Lemma diffShape_equiv {A} typ (emit : string → A → option A → list Change)
    prevIdx currentIdx o1 o2 o1' o2' :
  emit_named typ emit →
  range_ok prevIdx o1 → range_ok prevIdx o1' →
  range_ok currentIdx o2 → range_ok currentIdx o2' →
  diffShape typ emit prevIdx currentIdx o1 o2 ≡ₚ
    diffShape typ emit prevIdx currentIdx o1' o2'
  ∧ declKind <$> diffShape typ emit prevIdx currentIdx o1 o2 =
    declKind <$> diffShape typ emit prevIdx currentIdx o1' o2'.
Proof.
  intros Hemit H1 H1' H2 H2'.
  pose proof (diffShape_perm typ emit _ _ _ _ _ _ H1 H1' H2 H2') as Hperm.
  split; [done|].
  rewrite !(kinds_replicate typ) by by apply diffShape_kind.
  by rewrite (Permutation_length Hperm).
Qed.

Lemma packageDiff_equiv po po' prev current :
  pkgOrd_ok po prev current → pkgOrd_ok po' prev current →
  pc_equiv (packageDiff po prev current) (packageDiff po' prev current).
Proof.
  intros ([Hc1 Hc2] & [Hv1 Hv2] & [Hf1 Hf2] & [Hs1 Hs2] & [Hi1 Hi2] & [Ht1 Ht2])
         ([Hc1' Hc2'] & [Hv1' Hv2'] & [Hf1' Hf2'] & [Hs1' Hs2'] & [Hi1' Hi2']
          & [Ht1' Ht2']).
  unfold packageDiff, pc_equiv. cbn.
  rewrite !constsDiff_shape, !varsDiff_shape, !funcsDiff_shape,
    !structsDiff_shape, !interfacesDiff_shape, !typesDiff_shape by done.
  destruct (diffShape_equiv ConstType constEmit _ _ _ _ _ _
              constEmit_named Hc1 Hc1' Hc2 Hc2') as [Pc Kc].
  destruct (diffShape_equiv VarType varEmit _ _ _ _ _ _
              varEmit_named Hv1 Hv1' Hv2 Hv2') as [Pv Kv].
  destruct (diffShape_equiv FuncType _ _ _ _ _ _ _
              (removedEmit_named FuncType) Hf1 Hf1' Hf2 Hf2') as [Pf Kf].
  destruct (diffShape_equiv StructType _ _ _ _ _ _ _
              (removedEmit_named StructType) Hs1 Hs1' Hs2 Hs2') as [Ps Ks].
  destruct (diffShape_equiv InterfaceType _ _ _ _ _ _ _
              (removedEmit_named InterfaceType) Hi1 Hi1' Hi2 Hi2') as [Pi Ki].
  destruct (diffShape_equiv TypeDefType typeDefEmit _ _ _ _ _ _
              typeDefEmit_named Ht1 Ht1' Ht2 Ht2') as [Pt Kt].
  repeat split.
  - by rewrite Pc, Pv, Pf, Ps, Pi, Pt.
  - rewrite !fmap_app. unfold constsIndex, varsIndex, funcsIndex, structsIndex,
      interfacesIndex, typesIndex. by rewrite Kc, Kv, Kf, Ks, Ki, Kt.
Qed.

Global Instance pc_equiv_refl : Reflexive pc_equiv.
Proof. by intros p. Qed.

Lemma Forall2_pc_equiv_refl l : Forall2 pc_equiv l l.
Proof. induction l; by constructor. Qed.

Lemma Diff_added_loop (currentPkgs : gmap string Package) (seen : gset string)
    o (cs : list PackageChanges) :
  range currentPkgs o
    (λ path p changes,
       if decide (path ∈ seen) then changes
       else changes ++
              [NewPackageChanges (Package_Name p) (Package_Path p)
                 [NewDeclChange (Package_Name p) PackageType [Added]]])
    cs =
  cs ++ (o ≫= λ path,
           from_option
             (λ p, if decide (path ∈ seen) then []
                   else [NewPackageChanges (Package_Name p) (Package_Path p)
                           [NewDeclChange (Package_Name p) PackageType [Added]]])
             [] (currentPkgs !! path)).
Proof.
  revert cs. induction o as [|k o IH]; intros cs.
  - cbn. by rewrite app_nil_r.
  - rewrite range_cons. cbn.
    destruct (currentPkgs !! k) as [p|] eqn:Hk; cbn; rewrite IH; [|done].
    case_decide; [done|]. by rewrite <- app_assoc.
Qed.

Lemma Diff_shape s current prev :
  range_ok (packagesIndex prev) (sched_prev s) →
  Diff s current prev =
  (sched_prev s ≫= λ path,
     from_option (pathRound s (packagesIndex current) path) []
       (packagesIndex prev !! path)) ++
  (sched_current s ≫= λ path,
     from_option (pathAdded (packagesIndex prev) path) []
       (packagesIndex current !! path)).
Proof.
  intros Hok. unfold Diff.
  rewrite (range_emit _ (pathRound s (packagesIndex current))).
  - cbv beta iota. by rewrite (seen_range_ok _ _ Hok), Diff_added_loop.
  - intros k v cs seen. unfold comma_ok, pathRound.
    by destruct (packagesIndex current !! k).
Qed.

(** [Diff] hands the package of [current] to [packageDiff] as [prev] and
    the package of [prev] as [current]: a function that [current] gains
    comes out as removed. *)
Example Diff_exchanges_snapshots :
  sched_ok gainsG_sched gainsG_current gainsG_prev
  ∧ Diff gainsG_sched gainsG_current gainsG_prev =
    [ mkPackageChanges "p" "x/p" [DeclChange "G" FuncType [Removed]] ].
Proof.
  split; [|by vm_compute].
  split; [range_ok_concrete | split; [range_ok_concrete|]].
  intros path p1 p2 H1 H2.
  assert (path = "x/p") as ->.
  { apply mk_is_Some, index_is_Some in H1. cbn in H1. set_solver. }
  vm_compute in H1, H2. simplify_eq.
  repeat split; try range_ok_concrete; apply NoDup_nil_2 || by vm_compute.
Qed.

(** C6, at the input where the claim fails: the package [x/p] is in both
    snapshots and the function [G] only in the current one.  [Diff] calls
    [packageDiff] with the package of [current] in the place of [prev], so
    [funcsDiff] finds [G] in its [prev] and not in its [current]: the one
    change for [G] is [DeclChange G FuncType [Removed]], which is breaking,
    and no [Added] is reported. *)
Theorem Diff_reports_addition_as_removal :
  sched_ok gainsG_sched gainsG_current gainsG_prev
  ∧ Diff gainsG_sched gainsG_current gainsG_prev =
    [ mkPackageChanges "p" "x/p" [DeclChange "G" FuncType [Removed]] ]
  ∧ IsBreaking (DeclChange "G" FuncType [Removed]) = true.
Proof.
  split; [apply Diff_exchanges_snapshots|].
  split; [by vm_compute | done].
Qed.

(** ** Two runs of [Diff] *)




Lemma exampleSched_ok : sched_ok exampleSched exampleCurrent examplePrev.
Proof.
  split; [range_ok_concrete | split; [range_ok_concrete|]].
  intros path p1 p2 H1 H2.
  assert (path = "x/b") as ->.
  { apply mk_is_Some, index_is_Some in H1. cbn in H1. set_solver. }
  vm_compute in H1, H2. simplify_eq.
  repeat split; try range_ok_concrete; apply NoDup_nil_2 || by vm_compute.
Defined.



(** ** A snapshot against itself *)

(** C2, at the input where the claim fails: the snapshot holds one package
    with the variable [X] of type [int]; diffed against itself it yields a
    [TypeChanged] from [int] to [int] for [X]. *)
Theorem Diff_self_reports_changes :
  sched_ok oneVarSched oneVar oneVar
  ∧ Diff oneVarSched oneVar oneVar =
    [ mkPackageChanges "p" "x/p"
        [ DeclChange "X" VarType
            [TypeChanged (Some (TBasic "int")) (Some (TBasic "int"))] ] ].
Proof.
  split; [|by vm_compute].
  split; [range_ok_concrete | split; [range_ok_concrete|]].
  intros path p1 p2 H1 H2.
  assert (path = "x/p") as ->.
  { apply mk_is_Some, index_is_Some in H1. cbn in H1. set_solver. }
  vm_compute in H1, H2. simplify_eq.
  repeat split; try range_ok_concrete; apply NoDup_nil_2 || by vm_compute.
Qed.

(** ** Duplicated names *)



(** ** Version discovery *)

Lemma StronglySorted_reverse {A} (R : relation A) l :
  StronglySorted R l → StronglySorted (flip R) (reverse l).
Proof.
  induction 1 as [|x l Hl IH Hx]; [constructor|].
  rewrite reverse_cons. apply StronglySorted_app. split; [|split; [done|]].
  - intros y x' Hy ->%list_elem_of_singleton. unfold flip.
    rewrite Forall_forall in Hx. apply Hx. by apply elem_of_reverse.
  - repeat constructor.
Qed.

Section versions_lemmas.
Context (L : SemverLib).
Local Abbreviation parses := (parses L).

(** What is assumed of the semver library: the name of the sentinel is no
    version, and [LessThan] is a strict weak order. *)
Hypothesis HEAD_no_version : semver_NewVersion L "HEAD" = None.
Hypothesis LessThan_asym :
  ∀ a b, semver_LessThan L a b = true → semver_LessThan L b a = false.
Hypothesis LessThan_ntrans :
  ∀ a b c, semver_LessThan L a b = false → semver_LessThan L b c = false →
           semver_LessThan L a c = false.

Lemma parses_not_HEAD v : parses v → String.eqb (Version_Name v) "HEAD" = false.
Proof.
  intros [a Ha]. apply String.eqb_neq. intros Heq.
  rewrite Heq, HEAD_no_version in Ha. discriminate.
Qed.

Lemma byVersion_Less_parsed x y a b :
  semver_NewVersion L (Version_Name x) = Some a →
  semver_NewVersion L (Version_Name y) = Some b →
  byVersion_Less L x y = Some (semver_LessThan L a b).
Proof.
  intros Ha Hb. unfold byVersion_Less.
  rewrite !parses_not_HEAD by (unfold parses; eauto).
  by rewrite Ha, Hb.
Qed.

Lemma tagsLoop_Ok r steps result vs :
  tagsLoop L r steps result = Ok vs → vs = result ++ keptTags L r steps.
Proof.
  revert result. induction steps as [|[tag|err] steps IH]; intros result; cbn.
  - intros [= <-]. by rewrite app_nil_r.
  - destruct (Repo_CommitObject r (Tag_Hash tag)); [|by auto|done].
    destruct (semver_NewVersion L (Tag_Short tag)); [|by auto].
    intros ->%IH. cbn. by rewrite <- app_assoc.
  - done.
Qed.

Lemma tagsLoop_no_panic r steps result : tagsLoop L r steps result ≠ Panic.
Proof.
  revert result. induction steps as [|[tag|err] steps IH]; intros result; cbn;
    [done| |done].
  destruct (Repo_CommitObject r (Tag_Hash tag)); [|by auto|done].
  destruct (semver_NewVersion L (Tag_Short tag)); by auto.
Qed.

Lemma keptTags_parse r steps : Forall parses (keptTags L r steps).
Proof.
  apply Forall_forall. intros v (step & _ & Hstep)%list_elem_of_omap.
  destruct step as [tag|]; [|done].
  destruct (Repo_CommitObject r (Tag_Hash tag)); try done.
  destruct (semver_NewVersion L (Tag_Short tag)) eqn:Hp; [|done].
  injection Hstep as <-. unfold parses. cbn. by rewrite Hp.
Qed.

Lemma insertLeft_sorted head x d :
  Version_Name head = "HEAD" → parses x → Forall parses d →
  StronglySorted (flip (semver_ascending L)) d →
  ∃ d', insertLeft (byVersion_Less L) x (d ++ [head]) = Some (d' ++ [head])
        ∧ d' ≡ₚ x :: d
        ∧ StronglySorted (flip (semver_ascending L)) d'.
Proof.
  intros Hhead Hx. induction d as [|y d IH]; intros Hd Hs.
  - exists [x]. cbn. unfold byVersion_Less.
    rewrite (parses_not_HEAD x Hx), Hhead. cbn.
    split; [done|split; [done|repeat constructor]].
  - apply Forall_cons in Hd as [Hy Hd].
    apply StronglySorted_cons in Hs as [Hyd Hs].
    destruct Hx as [a Ha], Hy as [b Hb]. cbn.
    rewrite (byVersion_Less_parsed x y a b Ha Hb). cbn.
    destruct (semver_LessThan L a b) eqn:Hab.
    + destruct (IH Hd Hs) as (d' & -> & Hperm & Hs'). cbn.
      exists (y :: d'). split; [done|split].
      { by rewrite Hperm, Permutation_swap. }
      apply StronglySorted_cons. split; [|done].
      rewrite Hperm. constructor; [|done].
      exists a, b. eauto.
    + exists (x :: y :: d). split; [done|split; [done|]].
      apply StronglySorted_cons. split; [|by apply StronglySorted_cons].
      constructor; [by exists b, a|].
      rewrite Forall_forall in Hyd |- *. intros z Hz.
      destruct (Hyd z Hz) as (c & b' & Hc & Hb' & Hbc).
      assert (b' = b) as -> by congruence.
      exists c, a. eauto.
Qed.

Lemma insertionSort_sorted head d todo members :
  Version_Name head = "HEAD" → Forall parses todo →
  d ≡ₚ members → Forall parses d →
  StronglySorted (flip (semver_ascending L)) d →
  ∃ rest, insertionSort (byVersion_Less L) (d ++ [head]) todo = Some (head :: rest)
          ∧ rest ≡ₚ members ++ todo
          ∧ Forall parses rest
          ∧ StronglySorted (semver_ascending L) rest.
Proof.
  intros Hhead Htodo. revert d members.
  induction todo as [|x todo IH]; intros d members Hperm Hd Hs; cbn.
  - exists (reverse d). split; [by rewrite reverse_app|].
    split; [by rewrite app_nil_r, reverse_Permutation|].
    split; [by apply Forall_reverse|].
    by apply StronglySorted_reverse in Hs.
  - apply Forall_cons in Htodo as [Hx Htodo].
    destruct (insertLeft_sorted head x d Hhead Hx Hd Hs) as (d' & -> & Hp' & Hs').
    cbn. destruct (IH Htodo d' (members ++ [x])) as (rest & -> & Hr & Hpr & Hsr).
    + by rewrite Hp', Hperm, Permutation_cons_append.
    + by rewrite Hp', Forall_cons.
    + done.
    + exists rest. split; [done|]. split; [|done].
      by rewrite Hr, <- app_assoc.
Qed.

(** C9: [Versions] does not panic, and the list it returns starts with the
    version named [HEAD]; the entries after it are the tags that resolve to a
    commit and parse as semantic versions, each of them once, in ascending
    order of their versions. *)
Theorem Versions_sorted git_PlainOpen path :
  Versions L git_PlainOpen path ≠ Panic
  ∧ ∀ vs, Versions L git_PlainOpen path = Ok vs →
      ∃ r h iter rest,
        git_PlainOpen path = inr r
        ∧ Repo_Head r = HeadAt h
        ∧ Repo_Tags r = inr iter
        ∧ vs = mkVersion "HEAD" h :: rest
        ∧ rest ≡ₚ keptTags L r iter
        ∧ Forall parses rest
        ∧ StronglySorted (semver_ascending L) rest.
Proof.
  unfold Versions.
  destruct (git_PlainOpen path) as [err|r] eqn:Hopen; [by split|].
  destruct (Repo_Head r) as [h| |err] eqn:Hhead; [|by split..].
  destruct (Repo_Tags r) as [err|iter] eqn:Htags; [by split|].
  destruct (tagsLoop L r iter [mkVersion "HEAD" h]) as [result|msg|] eqn:Hloop.
  - apply tagsLoop_Ok in Hloop as ->. unfold sort_Stable. cbn.
    destruct (insertionSort_sorted (mkVersion "HEAD" h) [] (keptTags L r iter) [])
      as (rest & Hsort & Hperm & Hparse & Hsorted);
      [done | apply keptTags_parse | done | done | constructor |].
    cbn in Hsort. rewrite Hsort. split; [done|].
    intros vs [= <-]. by exists r, h, iter, rest.
  - by split.
  - by apply tagsLoop_no_panic in Hloop.
Qed.
End versions_lemmas.

Example Versions_toy :
  Versions toySemver toyOpen "repo" =
  Ok [ mkVersion "HEAD" [Byte.x09];
       mkVersion "v1.0.0" [Byte.x01];
       mkVersion "v2.0.0" [Byte.x02] ].
Proof. reflexivity. Qed.

Lemma Versions_sorted_witness :
  Versions toySemver toyOpen "repo" ≠ Panic
  ∧ ∀ vs, Versions toySemver toyOpen "repo" = Ok vs →
      ∃ r h iter rest,
        toyOpen "repo" = inr r
        ∧ Repo_Head r = HeadAt h
        ∧ Repo_Tags r = inr iter
        ∧ vs = mkVersion "HEAD" h :: rest
        ∧ rest ≡ₚ keptTags toySemver r iter
        ∧ Forall (parses toySemver) rest
        ∧ StronglySorted (semver_ascending toySemver) rest.
Proof.
  apply (Versions_sorted toySemver).
  - reflexivity.
  - cbn. intros a b Hab. apply Nat.ltb_lt in Hab. apply Nat.ltb_ge. lia.
  - cbn. intros a b c Hab Hbc. apply Nat.ltb_ge in Hab, Hbc. apply Nat.ltb_ge. lia.
Defined.

(** * Further properties *)

(** ** The entries of [Diff], path by path *)

Lemma filter_keep_all {B} (P : B → Prop) `{∀ b, Decision (P b)} (l : list B) :
  (∀ b, b ∈ l → P b) → filter P l = l.
Proof.
  induction l as [|b l IH]; intros Hl; [done|].
  rewrite filter_cons_True by (apply Hl; left).
  f_equal. apply IH. intros b' Hb'. apply Hl. by right.
Qed.

Lemma filter_drop_all {B} (P : B → Prop) `{∀ b, Decision (P b)} (l : list B) :
  (∀ b, b ∈ l → ¬ P b) → filter P l = [].
Proof.
  induction l as [|b l IH]; intros Hl; [done|].
  rewrite filter_cons_False by (apply Hl; left).
  apply IH. intros b' Hb'. apply Hl. by right.
Qed.

(** In a loop that visits every key once and only emits records keyed by
    the key of the round, the records of a key are those of its round. *)
Lemma filter_bind_keyed {B} (f : B → string) (g : string → list B) o k :
  (∀ k' b, b ∈ g k' → f b = k') →
  NoDup o →
  filter (λ b, f b = k) (o ≫= g) = if decide (k ∈ o) then g k else [].
Proof.
  intros Hg. induction 1 as [|k' o Hk' Hnd IH]; [done|].
  rewrite bind_cons, filter_app, IH.
  destruct (decide (k' = k)) as [->|Hne].
  - rewrite (decide_True (P := k ∈ k :: o)) by left.
    rewrite (decide_False (P := k ∈ o)) by done.
    rewrite app_nil_r. apply filter_keep_all. intros b. apply Hg.
  - rewrite filter_drop_all.
    + cbn. destruct (decide (k ∈ o)).
      * rewrite decide_True; [done | by right].
      * rewrite decide_False; [done|]. rewrite elem_of_cons. naive_solver.
    + intros b Hb. rewrite (Hg _ _ Hb). congruence.
Qed.

Lemma packageDiff_path po prev current :
  PC_Path (packageDiff po prev current) = Package_Path current
  ∧ PC_Name (packageDiff po prev current) = Package_Name current.
Proof. done. Qed.

(** What [Diff] returns about one path. *)
Lemma Diff_entriesFor s current prev path :
  range_ok (packagesIndex prev) (sched_prev s) →
  range_ok (packagesIndex current) (sched_current s) →
  entriesFor path (Diff s current prev) =
  match packagesIndex prev !! path, packagesIndex current !! path with
  | Some p1, Some p2 => [packageDiff (sched_pkg s path) p2 p1]
  | Some p1, None =>
      [NewPackageChanges (Package_Name p1) (Package_Path p1)
         [NewDeclChange (Package_Name p1) PackageType [Removed]]]
  | None, Some p =>
      [NewPackageChanges (Package_Name p) (Package_Path p)
         [NewDeclChange (Package_Name p) PackageType [Added]]]
  | None, None => []
  end.
Proof.
  intros Hok1 Hok2. rewrite Diff_shape by done. unfold entriesFor.
  rewrite filter_app, !filter_bind_keyed; try apply Hok1; try apply Hok2.
  - pose proof (range_ok_elem _ _ path Hok1) as H1.
    pose proof (range_ok_elem _ _ path Hok2) as H2.
    destruct (packagesIndex prev !! path) as [p1|] eqn:Hp1.
    + rewrite (decide_True (P := path ∈ sched_prev s)) by (apply H1; eauto).
      cbn. unfold pathRound, pathAdded.
      assert (path ∈ dom (packagesIndex prev)) by (apply elem_of_dom; eauto).
      destruct (packagesIndex current !! path) as [p2|] eqn:Hp2.
      * rewrite (decide_True (P := path ∈ sched_current s)) by (apply H2; eauto).
        cbn. by rewrite decide_True.
      * rewrite (decide_False (P := path ∈ sched_current s)); [done|].
        rewrite H2. apply is_Some_None.
    + rewrite (decide_False (P := path ∈ sched_prev s))
        by (rewrite H1; apply is_Some_None).
      cbn. unfold pathAdded.
      destruct (packagesIndex current !! path) as [p|] eqn:Hp.
      * rewrite (decide_True (P := path ∈ sched_current s)) by (apply H2; eauto).
        cbn. rewrite decide_False; [done|]. by apply not_elem_of_dom.
      * rewrite (decide_False (P := path ∈ sched_current s)); [done|].
        rewrite H2. apply is_Some_None.
  - intros k pc. destruct (packagesIndex current !! k) as [p|] eqn:Hp; [|set_solver].
    cbn. unfold pathAdded. case_decide; [set_solver|].
    intros ->%list_elem_of_singleton. cbn.
    by apply index_lookup_key in Hp.
  - intros k pc. destruct (packagesIndex prev !! k) as [p1|] eqn:Hp1; [|set_solver].
    cbn. unfold pathRound. apply index_lookup_key in Hp1.
    destruct (packagesIndex current !! k); intros ->%list_elem_of_singleton; done.
Qed.

(** X1: a package that [prev] has under a path [current] does not have is
    reported by exactly one entry for that path, holding the single change
    [DeclChange name PackageType [Removed]] under the name of the package
    in [prev], and that change is breaking. *)
Theorem package_removal s current prev path p1 :
  sched_ok s current prev →
  packagesIndex prev !! path = Some p1 →
  path ∉ Package_Path <$> current →
  entriesFor path (Diff s current prev) =
    [ mkPackageChanges (Package_Name p1) path
        [DeclChange (Package_Name p1) PackageType [Removed]] ]
  ∧ IsBreaking (DeclChange (Package_Name p1) PackageType [Removed]) = true.
Proof.
  intros (Hok1 & Hok2 & _) Hp1 Hcur%index_None. split; [|done].
  rewrite Diff_entriesFor by done. unfold packagesIndex in *.
  rewrite Hp1, Hcur. by rewrite (index_lookup_key _ _ _ _ Hp1).
Qed.

Lemma package_removal_witness :
  entriesFor "x/b"
    (Diff (canonicalSched [] examplePrev) [] examplePrev) =
    [ mkPackageChanges "b" "x/b" [DeclChange "b" PackageType [Removed]] ]
  ∧ IsBreaking (DeclChange "b" PackageType [Removed]) = true.
Proof.
  apply (package_removal (canonicalSched [] examplePrev) [] examplePrev "x/b"
           (mkPackage "b" "x/b" [mkVar "V" None] [] [] [] [] [])).
  - apply canonicalSched_ok.
  - by vm_compute.
  - cbn. set_solver.
Defined.

(** X2: a package that [current] has under a path [prev] does not have is
    reported by exactly one entry for that path, holding the single change
    [DeclChange name PackageType [Added]], and that change is not
    breaking. *)
Theorem package_addition s current prev path p :
  sched_ok s current prev →
  packagesIndex current !! path = Some p →
  path ∉ Package_Path <$> prev →
  entriesFor path (Diff s current prev) =
    [ mkPackageChanges (Package_Name p) path
        [DeclChange (Package_Name p) PackageType [Added]] ]
  ∧ IsBreaking (DeclChange (Package_Name p) PackageType [Added]) = false.
Proof.
  intros (Hok1 & Hok2 & _) Hp Hprev%index_None. split; [|done].
  rewrite Diff_entriesFor by done. unfold packagesIndex in *.
  rewrite Hp, Hprev. by rewrite (index_lookup_key _ _ _ _ Hp).
Qed.

Lemma package_addition_witness :
  entriesFor "x/a" (Diff exampleSched exampleCurrent examplePrev) =
    [ mkPackageChanges "a" "x/a" [DeclChange "a" PackageType [Added]] ]
  ∧ IsBreaking (DeclChange "a" PackageType [Added]) = false.
Proof.
  apply (package_addition exampleSched exampleCurrent examplePrev "x/a"
           (mkPackage "a" "x/a" [] [] [mkFunc "F" [] []] [] [] [])).
  - apply exampleSched_ok.
  - by vm_compute.
  - cbn. set_solver.
Defined.

(** X3: for a path both snapshots have, [Diff] returns exactly one entry:
    the result of [packageDiff] with the package of [current] as its
    argument [prev] and the package of [prev] as its argument [current].
    The entry carries the path, and the name the package has in [prev]. *)
Theorem package_matched s current prev path p1 p2 :
  sched_ok s current prev →
  packagesIndex prev !! path = Some p1 →
  packagesIndex current !! path = Some p2 →
  entriesFor path (Diff s current prev) = [packageDiff (sched_pkg s path) p2 p1]
  ∧ PC_Path (packageDiff (sched_pkg s path) p2 p1) = path
  ∧ PC_Name (packageDiff (sched_pkg s path) p2 p1) = Package_Name p1.
Proof.
  intros (Hok1 & Hok2 & _) Hp1 Hp2.
  rewrite Diff_entriesFor by done. rewrite Hp1, Hp2.
  split; [done|]. split; [|done]. cbn. by apply index_lookup_key in Hp1.
Qed.

Lemma package_matched_witness :
  entriesFor "x/b" (Diff exampleSched exampleCurrent examplePrev) =
    [ packageDiff (sched_pkg exampleSched "x/b")
        (mkPackage "b" "x/b" [] [] [] [] [] [])
        (mkPackage "b" "x/b" [mkVar "V" None] [] [] [] [] []) ]
  ∧ PC_Path (packageDiff (sched_pkg exampleSched "x/b")
               (mkPackage "b" "x/b" [] [] [] [] [] [])
               (mkPackage "b" "x/b" [mkVar "V" None] [] [] [] [] [])) = "x/b"
  ∧ PC_Name (packageDiff (sched_pkg exampleSched "x/b")
               (mkPackage "b" "x/b" [] [] [] [] [] [])
               (mkPackage "b" "x/b" [mkVar "V" None] [] [] [] [] [])) = "b".
Proof.
  apply (package_matched exampleSched exampleCurrent examplePrev).
  - apply exampleSched_ok.
  - by vm_compute.
  - by vm_compute.
Defined.

Lemma NoDup_fmap_filter {B} (f : B → string) (l : list B) :
  (∀ k, (length (filter (λ b, f b = k) l) ≤ 1)%nat) → NoDup (f <$> l).
Proof.
  induction l as [|b l IH]; intros Hl; [constructor|].
  cbn. constructor.
  - intros (b' & Heq & Hb')%list_elem_of_fmap.
    specialize (Hl (f b)). rewrite filter_cons_True in Hl by done.
    assert (b' ∈ filter (λ b0, f b0 = f b) l) as Hin
      by (apply list_elem_of_filter; split; [done|done]).
    destruct (filter (λ b0, f b0 = f b) l); [by apply elem_of_nil in Hin|].
    cbn in Hl. lia.
  - apply IH. intros k. specialize (Hl k).
    destruct (decide (f b = k)).
    + rewrite filter_cons_True in Hl by done. cbn in Hl. lia.
    + by rewrite filter_cons_False in Hl.
Qed.

(** X4: the result of [Diff] holds one entry per package path of either
    snapshot: no path occurs twice, and a path occurs exactly when [prev]
    or [current] has a package of that path. *)
Theorem Diff_one_entry_per_path s current prev :
  sched_ok s current prev →
  NoDup (PC_Path <$> Diff s current prev)
  ∧ ∀ path, path ∈ PC_Path <$> Diff s current prev ↔
            path ∈ Package_Path <$> prev ∨ path ∈ Package_Path <$> current.
Proof.
  intros (Hok1 & Hok2 & _).
  pose proof (Diff_entriesFor s current prev) as Hfor.
  split.
  - apply NoDup_fmap_filter. intros path.
    change (length (entriesFor path (Diff s current prev)) ≤ 1)%nat.
    rewrite Hfor by done. repeat case_match; cbn; lia.
  - intros path. rewrite <- (index_is_Some Package_Path prev).
    rewrite <- (index_is_Some Package_Path current).
    fold (packagesIndex prev). fold (packagesIndex current). specialize (Hfor path Hok1 Hok2).
    split.
    + intros (pc & -> & Hpc)%list_elem_of_fmap.
      assert (pc ∈ entriesFor (PC_Path pc) (Diff s current prev))
        as Hin by (by apply list_elem_of_filter).
      rewrite Hfor in Hin.
      destruct (packagesIndex prev !! PC_Path pc); [eauto|].
      destruct (packagesIndex current !! PC_Path pc); [eauto|].
      by apply elem_of_nil in Hin.
    + intros Hsome.
      assert (∃ pc, pc ∈ entriesFor path (Diff s current prev))
        as (pc & [Hpath Hpc]%list_elem_of_filter).
      { rewrite Hfor. destruct Hsome as [[p1 ->]|[p2 Hp2]].
        - destruct (packagesIndex current !! path); eexists; by left.
        - rewrite Hp2. destruct (packagesIndex prev !! path); eexists; by left. }
      apply list_elem_of_fmap. eauto.
Qed.

Lemma Diff_one_entry_per_path_witness :
  NoDup (PC_Path <$> Diff exampleSched exampleCurrent examplePrev)
  ∧ ∀ path, path ∈ PC_Path <$> Diff exampleSched exampleCurrent examplePrev ↔
            path ∈ Package_Path <$> examplePrev
            ∨ path ∈ Package_Path <$> exampleCurrent.
Proof.
  apply Diff_one_entry_per_path, exampleSched_ok.
Defined.

(** ** More about the six differs *)

Lemma DeclChange_of_name_kind c name typ :
  declName c = Some name → declKind c = Some typ →
  ∃ cs, c = DeclChange name typ cs.
Proof. destruct c; try done. cbn. intros [= ->] [= ->]. eauto. Qed.

Lemma bind_all_nil {B} (g : string → list B) (o : list string) :
  (∀ k, g k = []) → o ≫= g = [].
Proof.
  intros Hg. induction o as [|k o IH]; [done|].
  by rewrite bind_cons, Hg, IH.
Qed.

Section more_diffShape_lemmas.
Context {A : Type} (typ : DeclType) (key : A → string).
Implicit Types (prev current : list A).

Lemma diffShape_names emit prev current o1 o2 :
  emit_named typ emit →
  Forall (λ c, ∃ name cs, c = DeclChange name typ cs
                          ∧ (name ∈ key <$> prev ∨ name ∈ key <$> current))
    (diffShape typ emit (index key prev) (index key current) o1 o2).
Proof.
  intros Hemit. unfold diffShape. rewrite Forall_app, !Forall_forall.
  split; intros c (k & Hc & _)%list_elem_of_bind.
  - destruct (index key prev !! k) as [v|] eqn:Hk; [|by apply elem_of_nil in Hc].
    cbn in Hc. apply Hemit in Hc as [Hn Hk'].
    destruct (DeclChange_of_name_kind c k typ Hn Hk') as [cs ->].
    exists k, cs. split; [done|]. left. apply index_is_Some. eauto.
  - case_decide as Hd; [|by apply elem_of_nil in Hc].
    apply list_elem_of_singleton in Hc as ->.
    exists k, [Added]. split; [done|]. right. apply index_is_Some, Hd.
Qed.

Lemma removedShape_breaking prev current o1 o2 :
  range_ok (index key prev) o1 →
  existsb IsBreaking
    (diffShape typ (removedEmit typ) (index key prev) (index key current) o1 o2)
  = true ↔
  ∃ name, name ∈ key <$> prev ∧ name ∉ key <$> current.
Proof.
  intros Hok. rewrite existsb_exists. unfold diffShape. split.
  - intros (c & Hin & Hb). apply list_elem_of_In, elem_of_app in Hin.
    destruct Hin as [(k & Hc & _)%list_elem_of_bind|(k & Hc & _)%list_elem_of_bind].
    + destruct (index key prev !! k) as [v|] eqn:Hk; [|by apply elem_of_nil in Hc].
      cbn in Hc. unfold removedEmit in Hc.
      destruct (index key current !! k) eqn:Hk2; [by apply elem_of_nil in Hc|].
      exists k. split; [apply index_is_Some; eauto | by apply index_None].
    + case_decide; [|by apply elem_of_nil in Hc].
      apply list_elem_of_singleton in Hc as ->. discriminate Hb.
  - intros (name & [v Hv]%index_is_Some & Hc%index_None).
    exists (DeclChange name typ [Removed]). split; [|done].
    apply list_elem_of_In, elem_of_app. left. apply list_elem_of_bind.
    exists name. split.
    + rewrite Hv. cbn. unfold removedEmit. rewrite Hc. by left.
    + apply (range_ok_elem _ _ _ Hok). eauto.
Qed.

Lemma removedShape_self xs o1 o2 :
  diffShape typ (removedEmit typ) (index key xs) (index key xs) o1 o2 = [].
Proof.
  unfold diffShape. rewrite !bind_all_nil; [done| |].
  - intros k. case_decide as Hd; [|done].
    destruct Hd as [Hs Hn]. by apply elem_of_dom in Hs.
  - intros k. by destruct (index key xs !! k).
Qed.
End more_diffShape_lemmas.

(** X5: in the categories of variables, functions, structs and interfaces,
    a name present in [prev] and absent from [current] is reported as
    exactly [DeclChange name kind [Removed]], and that change is breaking. *)
Theorem removal_classification :
  reports_removed VarType Var_Name varsDiff
  ∧ reports_removed FuncType Func_Name funcsDiff
  ∧ reports_removed StructType Struct_Name structsDiff
  ∧ reports_removed InterfaceType Interface_Name interfacesDiff.
Proof.
  repeat split; try reflexivity.
  - by apply varsDiff_removed.
  - rewrite funcsDiff_shape by done. by apply removedEmit_removed.
  - rewrite structsDiff_shape by done. by apply removedEmit_removed.
  - rewrite interfacesDiff_shape by done. by apply removedEmit_removed.
Qed.

Lemma removal_classification_witness :
  changesFor "S"
    (structsDiff ["S"; "T"] ["T"]
       [mkStruct "S" [mkField "f" (Some (TBasic "int"))] []; mkStruct "T" [] []]
       [mkStruct "T" [] []])
  = [DeclChange "S" StructType [Removed]]
  ∧ IsBreaking (DeclChange "S" StructType [Removed]) = true.
Proof.
  apply (proj1 (proj2 (proj2 removal_classification))).
  - range_ok_concrete.
  - range_ok_concrete.
  - cbn. set_solver.
  - cbn. set_solver.
Defined.

(** X6: every change a differ returns is a [DeclChange] of the differ's own
    category, named after an entry of one of its two inputs. *)
Theorem differs_name_their_inputs :
  names_its_inputs ConstType Const_Name constsDiff
  ∧ names_its_inputs VarType Var_Name varsDiff
  ∧ names_its_inputs FuncType Func_Name funcsDiff
  ∧ names_its_inputs StructType Struct_Name structsDiff
  ∧ names_its_inputs InterfaceType Interface_Name interfacesDiff
  ∧ names_its_inputs TypeDefType TypeDef_Name typesDiff.
Proof.
  repeat split; intros o1 o2 prev current Hok1 Hok2.
  - rewrite constsDiff_shape by done.
    apply diffShape_names, constEmit_named.
  - rewrite varsDiff_shape by done.
    apply diffShape_names, varEmit_named.
  - rewrite funcsDiff_shape by done.
    apply diffShape_names, removedEmit_named.
  - rewrite structsDiff_shape by done.
    apply diffShape_names, removedEmit_named.
  - rewrite interfacesDiff_shape by done.
    apply diffShape_names, removedEmit_named.
  - rewrite typesDiff_shape by done.
    apply diffShape_names, typeDefEmit_named.
Qed.

Lemma differs_name_their_inputs_witness :
  Forall (λ c, ∃ name cs, c = DeclChange name ConstType cs
                          ∧ (name ∈ Const_Name <$> [mkConst "A" None "1"]
                             ∨ name ∈ Const_Name <$> [mkConst "B" None "2"]))
    (constsDiff ["A"] ["B"] [mkConst "A" None "1"] [mkConst "B" None "2"]).
Proof.
  apply (proj1 differs_name_their_inputs); range_ok_concrete.
Defined.

(** X7: [funcsDiff], [structsDiff] and [interfacesDiff] return a breaking
    change exactly when some name of [prev] is missing from [current]. *)
Theorem breaking_means_removal :
  breaks_on_removal_only Func_Name funcsDiff
  ∧ breaks_on_removal_only Struct_Name structsDiff
  ∧ breaks_on_removal_only Interface_Name interfacesDiff.
Proof.
  split; [|split]; intros o1 o2 prev current Hok1 Hok2.
  - rewrite funcsDiff_shape by done. by apply removedShape_breaking.
  - rewrite structsDiff_shape by done. by apply removedShape_breaking.
  - rewrite interfacesDiff_shape by done. by apply removedShape_breaking.
Qed.

Lemma breaking_means_removal_witness :
  existsb IsBreaking
    (funcsDiff ["F"] ["G"] [mkFunc "F" [] []] [mkFunc "G" [] []]) = true ↔
  ∃ name, name ∈ Func_Name <$> [mkFunc "F" [] []]
          ∧ name ∉ Func_Name <$> [mkFunc "G" [] []].
Proof.
  apply (proj1 breaking_means_removal); range_ok_concrete.
Defined.

(** X8: [funcsDiff], [structsDiff] and [interfacesDiff] return no change
    when both inputs are the same list, duplicates of a name included. *)
Theorem unchanged_is_silent :
  silent_on_itself Func_Name funcsDiff
  ∧ silent_on_itself Struct_Name structsDiff
  ∧ silent_on_itself Interface_Name interfacesDiff.
Proof.
  split; [|split]; intros o1 o2 xs Hok1 Hok2.
  - rewrite funcsDiff_shape by done. apply removedShape_self.
  - rewrite structsDiff_shape by done. apply removedShape_self.
  - rewrite interfacesDiff_shape by done. apply removedShape_self.
Qed.

Lemma unchanged_is_silent_witness :
  interfacesDiff ["I"] ["I"]
    [mkInterface "I" [mkFunc "M" [] []]; mkInterface "I" []]
    [mkInterface "I" [mkFunc "M" [] []]; mkInterface "I" []] = [].
Proof.
  apply (proj2 (proj2 unchanged_is_silent)); range_ok_concrete.
Defined.

(** ** The changes of one package, category by category *)

Lemma changesOf_app typ name cs1 cs2 :
  changesOf typ name (cs1 ++ cs2) = changesOf typ name cs1 ++ changesOf typ name cs2.
Proof. apply filter_app. Qed.

(** A block of changes of one category: the changes of that category about
    a name are the changes about the name, and no other category has any. *)
Lemma changesOf_block typ typ' name cs :
  Forall (λ c, declKind c = Some typ') cs →
  changesOf typ name cs = if decide (typ = typ') then changesFor name cs else [].
Proof.
  unfold changesOf, changesFor.
  induction 1 as [|c cs Hc _ IH]; [by case_decide|].
  destruct (decide (typ = typ')) as [->|Hne].
  - destruct (decide (declName c = Some name)).
    + rewrite !filter_cons_True by done. by rewrite IH.
    + rewrite !filter_cons_False by tauto. by rewrite IH.
  - rewrite filter_cons_False by (rewrite Hc; intros [[=] _]; congruence).
    by rewrite IH.
Qed.

Ltac package_blocks :=
  unfold packageDiff; cbn [PC_Changes];
  rewrite !constsDiff_shape, !varsDiff_shape, !funcsDiff_shape,
    !structsDiff_shape, !interfacesDiff_shape, !typesDiff_shape by done;
  rewrite app_nil_l, !changesOf_app;
  rewrite (changesOf_block _ ConstType) by (apply diffShape_kind, constEmit_named);
  rewrite (changesOf_block _ VarType) by (apply diffShape_kind, varEmit_named);
  rewrite (changesOf_block _ FuncType)
    by (apply diffShape_kind, removedEmit_named);
  rewrite (changesOf_block _ StructType)
    by (apply diffShape_kind, removedEmit_named);
  rewrite (changesOf_block _ InterfaceType)
    by (apply diffShape_kind, removedEmit_named);
  rewrite (changesOf_block _ TypeDefType)
    by (apply diffShape_kind, typeDefEmit_named);
  repeat (rewrite decide_True by done || rewrite decide_False by done);
  rewrite ?app_nil_r; cbn [app].

(** The changes of [packageDiff] of one category about one name are those
    of the category's differ. *)
Lemma packageDiff_blocks po prev current name :
  pkgOrd_ok po prev current →
  changesOf ConstType name (PC_Changes (packageDiff po prev current)) =
    changesFor name
      (diffShape ConstType constEmit (constsIndex (Package_Consts prev))
         (constsIndex (Package_Consts current)) (po ConstType).1 (po ConstType).2)
  ∧ changesOf VarType name (PC_Changes (packageDiff po prev current)) =
    changesFor name
      (diffShape VarType varEmit (varsIndex (Package_Vars prev))
         (varsIndex (Package_Vars current)) (po VarType).1 (po VarType).2)
  ∧ changesOf FuncType name (PC_Changes (packageDiff po prev current)) =
    changesFor name
      (diffShape FuncType (removedEmit FuncType) (funcsIndex (Package_Funcs prev))
         (funcsIndex (Package_Funcs current)) (po FuncType).1 (po FuncType).2)
  ∧ changesOf StructType name (PC_Changes (packageDiff po prev current)) =
    changesFor name
      (diffShape StructType (removedEmit StructType)
         (structsIndex (Package_Structs prev))
         (structsIndex (Package_Structs current))
         (po StructType).1 (po StructType).2)
  ∧ changesOf InterfaceType name (PC_Changes (packageDiff po prev current)) =
    changesFor name
      (diffShape InterfaceType (removedEmit InterfaceType)
         (interfacesIndex (Package_Interfaces prev))
         (interfacesIndex (Package_Interfaces current))
         (po InterfaceType).1 (po InterfaceType).2)
  ∧ changesOf TypeDefType name (PC_Changes (packageDiff po prev current)) =
    changesFor name
      (diffShape TypeDefType typeDefEmit (typesIndex (Package_Types prev))
         (typesIndex (Package_Types current))
         (po TypeDefType).1 (po TypeDefType).2).
Proof.
  intros ([Hc1 Hc2] & [Hv1 Hv2] & [Hf1 Hf2] & [Hs1 Hs2] & [Hi1 Hi2] & [Ht1 Ht2]).
  repeat split; package_blocks; reflexivity.
Qed.

Ltac pkg_order H :=
  destruct H as ([?Hc1 ?Hc2] & [?Hv1 ?Hv2] & [?Hf1 ?Hf2] & [?Hs1 ?Hs2]
                 & [?Hi1 ?Hi2] & [?Ht1 ?Ht2]).

(** X9: [packageDiff] keeps the classification of the differs, category by
    category: in each of the six categories a name only its argument
    [current] has is reported as exactly [DeclChange name kind [Added]];
    for variables, functions, structs and interfaces a name only its
    argument [prev] has is reported as exactly
    [DeclChange name kind [Removed]]. *)
Theorem packageDiff_classifies :
  (package_reports_added ConstType Const_Name Package_Consts
   ∧ package_reports_added VarType Var_Name Package_Vars
   ∧ package_reports_added FuncType Func_Name Package_Funcs
   ∧ package_reports_added StructType Struct_Name Package_Structs
   ∧ package_reports_added InterfaceType Interface_Name Package_Interfaces
   ∧ package_reports_added TypeDefType TypeDef_Name Package_Types)
  ∧ (package_reports_removed VarType Var_Name Package_Vars
     ∧ package_reports_removed FuncType Func_Name Package_Funcs
     ∧ package_reports_removed StructType Struct_Name Package_Structs
     ∧ package_reports_removed InterfaceType Interface_Name Package_Interfaces).
Proof.
  split; repeat split; intros po prev current name Hok Hin Hout;
    pose proof (packageDiff_blocks po prev current name Hok)
      as (Bc & Bv & Bf & Bs & Bi & Bt);
    pkg_order Hok.
  - rewrite Bc. apply diffShape_added; auto using constEmit_named.
  - rewrite Bv. apply diffShape_added; auto using varEmit_named.
  - rewrite Bf. apply diffShape_added; auto using @removedEmit_named.
  - rewrite Bs. apply diffShape_added; auto using @removedEmit_named.
  - rewrite Bi. apply diffShape_added; auto using @removedEmit_named.
  - rewrite Bt. apply diffShape_added; auto using typeDefEmit_named.
  - rewrite Bv, <- varsDiff_shape by done. by apply varsDiff_removed.
  - rewrite Bf. by apply removedEmit_removed.
  - rewrite Bs. by apply removedEmit_removed.
  - rewrite Bi. by apply removedEmit_removed.
Qed.

Lemma packageDiff_classifies_witness :
  changesOf FuncType "F"
    (PC_Changes
       (packageDiff
          (canonicalPkgOrd (mkPackage "b" "x/b" [] [] [] [] [] [])
             (mkPackage "a" "x/a" [] [] [mkFunc "F" [] []] [] [] []))
          (mkPackage "b" "x/b" [] [] [] [] [] [])
          (mkPackage "a" "x/a" [] [] [mkFunc "F" [] []] [] [] [])))
  = [DeclChange "F" FuncType [Added]].
Proof.
  apply (proj1 (proj2 (proj2 (proj1 packageDiff_classifies)))).
  - apply canonicalPkgOrd_ok.
  - cbn. set_solver.
  - cbn. set_solver.
Defined.

(** ** The two snapshots in [Diff] *)

Lemma Diff_matched_entry s current prev path p1 p2 :
  sched_ok s current prev →
  packagesIndex prev !! path = Some p1 →
  packagesIndex current !! path = Some p2 →
  entriesFor path (Diff s current prev) = [packageDiff (sched_pkg s path) p2 p1]
  ∧ pkgOrd_ok (sched_pkg s path) p2 p1.
Proof.
  intros (Hok1 & Hok2 & Hpkg) Hp1 Hp2.
  rewrite Diff_entriesFor by done. rewrite Hp1, Hp2. eauto.
Qed.

(** X10: for a package both snapshots have, [Diff] hands the snapshots to
    [packageDiff] in exchanged roles.  In the categories of variables,
    functions, structs and interfaces, a name that only the package of
    [current] has is reported as exactly [DeclChange name kind [Removed]],
    and a name that only the package of [prev] has as exactly
    [DeclChange name kind [Added]]. *)
Theorem Diff_exchanges_roles :
  diff_exchanges VarType Var_Name Package_Vars
  ∧ diff_exchanges FuncType Func_Name Package_Funcs
  ∧ diff_exchanges StructType Struct_Name Package_Structs
  ∧ diff_exchanges InterfaceType Interface_Name Package_Interfaces.
Proof.
  repeat split; intros s current prev path p1 p2 name Hs Hp1 Hp2;
    destruct (Diff_matched_entry s current prev path p1 p2 Hs Hp1 Hp2)
      as [Hentry Hok];
    exists (packageDiff (sched_pkg s path) p2 p1); (split; [done|]);
    pose proof (packageDiff_blocks (sched_pkg s path) p2 p1 name Hok)
      as (Bc & Bv & Bf & Bs & Bi & Bt);
    pkg_order Hok.
  - rewrite Bv. split; intros Hin Hout.
    + rewrite <- varsDiff_shape by done. by apply varsDiff_removed.
    + apply diffShape_added; auto using varEmit_named.
  - rewrite Bf. split; intros Hin Hout.
    + by apply removedEmit_removed.
    + apply diffShape_added; auto using @removedEmit_named.
  - rewrite Bs. split; intros Hin Hout.
    + by apply removedEmit_removed.
    + apply diffShape_added; auto using @removedEmit_named.
  - rewrite Bi. split; intros Hin Hout.
    + by apply removedEmit_removed.
    + apply diffShape_added; auto using @removedEmit_named.
Qed.

Lemma Diff_exchanges_roles_witness :
  ∃ e, entriesFor "x/p" (Diff gainsG_sched gainsG_current gainsG_prev) = [e]
       ∧ ("G" ∈ Func_Name <$> [mkFunc "G" [] []] →
          "G" ∉ Func_Name <$> [] →
          changesOf FuncType "G" (PC_Changes e) = [DeclChange "G" FuncType [Removed]])
       ∧ ("G" ∈ Func_Name <$> [] →
          "G" ∉ Func_Name <$> [mkFunc "G" [] []] →
          changesOf FuncType "G" (PC_Changes e) = [DeclChange "G" FuncType [Added]]).
Proof.
  apply (proj1 (proj2 Diff_exchanges_roles)
           gainsG_sched gainsG_current gainsG_prev "x/p"
           (mkPackage "p" "x/p" [] [] [] [] [] [])
           (mkPackage "p" "x/p" [] [] [mkFunc "G" [] []] [] [] [])).
  - apply Diff_exchanges_snapshots.
  - by vm_compute.
  - by vm_compute.
Defined.

(** ** The verdict of a run *)

Lemma existsb_Permutation {B} (f : B → bool) l l' :
  l ≡ₚ l' → existsb f l = existsb f l'.
Proof.
  induction 1 as [|x l l' _ IH|x y l|l l' l'' _ IH1 _ IH2]; cbn.
  - done.
  - by rewrite IH.
  - by destruct (f x), (f y).
  - by rewrite IH1.
Qed.

Lemma Diff_runs_equiv s s' current prev :
  sched_ok s current prev → sched_ok s' current prev →
  APIChanges_equiv (Diff s current prev) (Diff s' current prev).
Proof.
  intros (H1 & H2 & H3) (H1' & H2' & H3').
  rewrite !Diff_shape by done.
  exists ((sched_prev s' ≫= λ path,
             from_option (pathRound s (packagesIndex current) path) []
               (packagesIndex prev !! path)) ++
          (sched_current s' ≫= λ path,
             from_option (pathAdded (packagesIndex prev) path) []
               (packagesIndex current !! path))).
  split.
  - by rewrite (range_ok_perm _ _ _ H1 H1'), (range_ok_perm _ _ _ H2 H2').
  - apply Forall2_app; [|apply Forall2_pc_equiv_refl].
    clear H1'. induction (sched_prev s') as [|path o IH]; [constructor|].
    rewrite !bind_cons. apply Forall2_app; [|done].
    destruct (packagesIndex prev !! path) as [p1|] eqn:Hp1; [|constructor].
    cbn. unfold pathRound.
    destruct (packagesIndex current !! path) as [p2|] eqn:Hp2.
    + repeat constructor; apply packageDiff_equiv; eauto.
    + by repeat constructor.
Qed.

Lemma anyBreaking_equiv l l' : APIChanges_equiv l l' → anyBreaking l = anyBreaking l'.
Proof.
  intros (l'' & Hperm & Hall). unfold anyBreaking.
  rewrite (existsb_Permutation _ _ _ Hperm). clear Hperm.
  induction Hall as [|p q l1 l2 (_ & _ & Hcs & _) _ IH]; [done|].
  cbn. by rewrite IH, (existsb_Permutation _ _ _ Hcs).
Qed.

(** X11: whether a run of [Diff] reports a breaking change does not depend
    on the order in which its loops visit their maps. *)
Theorem breaking_verdict_order_independent s s' current prev :
  sched_ok s current prev → sched_ok s' current prev →
  anyBreaking (Diff s current prev) = anyBreaking (Diff s' current prev).
Proof. intros Hs Hs'. by apply anyBreaking_equiv, Diff_runs_equiv. Qed.

Lemma breaking_verdict_order_independent_witness :
  anyBreaking
    (Diff (canonicalSched exampleCurrent examplePrev) exampleCurrent examplePrev)
  = anyBreaking (Diff exampleSched exampleCurrent examplePrev).
Proof.
  apply breaking_verdict_order_independent;
    [apply canonicalSched_ok | apply exampleSched_ok].
Defined.

(** ** More about the indices *)

Section more_index_lemmas.
Context {A : Type} (key : A → string).
Implicit Types (xs : list A).

Lemma index_lookup_elem xs name x : index key xs !! name = Some x → x ∈ xs.
Proof.
  rewrite index_lookup. intros Hl.
  assert (x ∈ filter (λ x, key x = name) xs) as Hin.
  { apply last_Some in Hl as [l' ->]. set_solver. }
  by apply list_elem_of_filter in Hin as [_ ?].
Qed.

Lemma index_keyed : keyed_by_name key (index key).
Proof.
  split.
  - intros xs name x Hx. split.
    + by apply index_lookup_key in Hx.
    + by apply index_lookup_elem in Hx.
  - intros xs name. apply index_None.
Qed.

Lemma index_unique_lookup xs x :
  NoDup (key <$> xs) → x ∈ xs → index key xs !! key x = Some x.
Proof.
  induction xs as [|y xs IH] using rev_ind; intros Hnd Hx.
  - by apply elem_of_nil in Hx.
  - rewrite fmap_app in Hnd. apply NoDup_app in Hnd as (Hnd & Hdisj & _).
    rewrite index_snoc. apply elem_of_app in Hx as [Hx|Hx].
    + rewrite lookup_insert_ne; [by apply IH|].
      intros Heq. apply (Hdisj (key x)).
      * apply list_elem_of_fmap. eauto.
      * rewrite <- Heq. cbn. by left.
    + apply list_elem_of_singleton in Hx as ->. apply lookup_insert_eq.
Qed.

Lemma index_unique_size xs : NoDup (key <$> xs) → size (index key xs) = length xs.
Proof.
  intros Hnd. rewrite <- size_dom, index_dom, size_list_to_set by done.
  apply length_fmap.
Qed.

Lemma index_finds_all : finds_all_when_unique key (index key).
Proof.
  intros xs Hnd. split.
  - intros x. by apply index_unique_lookup.
  - by apply index_unique_size.
Qed.
End more_index_lemmas.

(** X12: each of the seven indices stores an entry under the entry's own
    name (a package under its path), holds only entries of the slice it was
    built from, and misses a name exactly when no entry of the slice has
    it. *)
Theorem indices_keyed_by_name :
  keyed_by_name Const_Name constsIndex
  ∧ keyed_by_name Var_Name varsIndex
  ∧ keyed_by_name Func_Name funcsIndex
  ∧ keyed_by_name Struct_Name structsIndex
  ∧ keyed_by_name Interface_Name interfacesIndex
  ∧ keyed_by_name TypeDef_Name typesIndex
  ∧ keyed_by_name Package_Path packagesIndex.
Proof. split_and!; apply index_keyed. Qed.

Lemma indices_keyed_by_name_witness :
  Var_Name (mkVar "X" None) = "X" ∧ mkVar "X" None ∈ [mkVar "X" None].
Proof.
  apply (proj1 (proj1 (proj2 indices_keyed_by_name)) [mkVar "X" None] "X").
  by vm_compute.
Defined.

(** X13: on a slice in which no name occurs twice, each of the seven
    indices finds every entry under its name, and has as many keys as the
    slice has entries. *)
Theorem indices_find_all_when_unique :
  finds_all_when_unique Const_Name constsIndex
  ∧ finds_all_when_unique Var_Name varsIndex
  ∧ finds_all_when_unique Func_Name funcsIndex
  ∧ finds_all_when_unique Struct_Name structsIndex
  ∧ finds_all_when_unique Interface_Name interfacesIndex
  ∧ finds_all_when_unique TypeDef_Name typesIndex
  ∧ finds_all_when_unique Package_Path packagesIndex.
Proof. split_and!; apply index_finds_all. Qed.

Lemma indices_find_all_when_unique_witness :
  (∀ x, x ∈ [mkFunc "F" [] []; mkFunc "G" [] []] →
        funcsIndex [mkFunc "F" [] []; mkFunc "G" [] []] !! Func_Name x = Some x)
  ∧ size (funcsIndex [mkFunc "F" [] []; mkFunc "G" [] []]) =
    length [mkFunc "F" [] []; mkFunc "G" [] []].
Proof.
  apply (proj1 (proj2 (proj2 indices_find_all_when_unique))).
  cbn. refine (bool_decide_unpack _ _). vm_compute. exact I.
Defined.

(** ** More about the change tree *)

(** Induction on a change with the children of a node at hand. *)
Lemma Change_nested_ind (Q : Change → Prop) :
  (∀ name typ cs, Forall Q cs → Q (DeclChange name typ cs)) →
  (∀ pos name typ cs, Forall Q cs → Q (ArgumentChanged pos name typ cs)) →
  (∀ pos typ cs, Forall Q cs → Q (ResultChanged pos typ cs)) →
  (∀ pos name cs, Forall Q cs → Q (FieldChanged pos name cs)) →
  (∀ from to, Q (TypeChanged from to)) →
  (∀ from to, Q (PositionChanged from to)) →
  Q Removed → Q Added →
  (∀ from to, Q (ValueChanged from to)) →
  (∀ rendering, Q (OtherChange rendering)) →
  ∀ c, Q c.
Proof.
  intros HD HA HR HF HT HP Hrem Hadd HV HO.
  fix IH 1. intros [name typ cs|pos name typ cs|pos typ cs|pos name cs
                     |from to|from to| | |from to|rendering].
  - apply HD. induction cs as [|c cs IHcs]; constructor; [apply IH | exact IHcs].
  - apply HA. induction cs as [|c cs IHcs]; constructor; [apply IH | exact IHcs].
  - apply HR. induction cs as [|c cs IHcs]; constructor; [apply IH | exact IHcs].
  - apply HF. induction cs as [|c cs IHcs]; constructor; [apply IH | exact IHcs].
  - apply HT.
  - apply HP.
  - exact Hrem.
  - exact Hadd.
  - apply HV.
  - apply HO.
Qed.

Lemma IsBreaking_app name typ cs1 cs2 :
  IsBreaking (DeclChange name typ (cs1 ++ cs2)) =
  IsBreaking (DeclChange name typ cs1) || IsBreaking (DeclChange name typ cs2).
Proof. rewrite !IsBreaking_DeclChange. apply existsb_app. Qed.

(** X14: the verdict on a [DeclChange] depends on its children only, not on
    its name, its category or the order of the children; the verdict on
    two lists of children put together is the disjunction of the two
    verdicts, and wrapping a [DeclChange] into another keeps the verdict. *)
Theorem IsBreaking_children :
  (∀ name typ name' typ' cs cs',
     cs ≡ₚ cs' →
     IsBreaking (DeclChange name typ cs) = IsBreaking (DeclChange name' typ' cs'))
  ∧ (∀ name typ cs1 cs2,
       IsBreaking (DeclChange name typ (cs1 ++ cs2)) =
       IsBreaking (DeclChange name typ cs1) || IsBreaking (DeclChange name typ cs2))
  ∧ (∀ name typ name' typ' cs,
       IsBreaking (DeclChange name typ [DeclChange name' typ' cs]) =
       IsBreaking (DeclChange name' typ' cs)).
Proof.
  split_and!.
  - intros name typ name' typ' cs cs' Hperm.
    rewrite !IsBreaking_DeclChange. by apply existsb_Permutation.
  - apply IsBreaking_app.
  - intros name typ name' typ' cs.
    rewrite (IsBreaking_DeclChange name typ). cbn [existsb]. apply orb_false_r.
Qed.

Lemma IsBreaking_children_witness :
  IsBreaking (DeclChange "A" ConstType [Added; Removed]) =
  IsBreaking (DeclChange "B" VarType [Removed; Added]).
Proof.
  apply (proj1 IsBreaking_children). apply Permutation_swap.
Defined.

(** X15: [DeclType.String] gives different texts for different
    categories. *)
Theorem DeclType_String_injective d1 d2 :
  DeclType_String d1 = DeclType_String d2 → d1 = d2.
Proof. destruct d1, d2; cbn; intros H; try reflexivity; discriminate H. Qed.

Lemma DeclType_String_injective_witness : FuncType = FuncType.
Proof. apply DeclType_String_injective. reflexivity. Defined.

Lemma forallb_Forall_True {B} (f : B → bool) l :
  forallb f l = true ↔ Forall (λ x, f x = true) l.
Proof.
  rewrite forallb_forall, Forall_forall. by setoid_rewrite list_elem_of_In.
Qed.

Lemma joinChanges_is_Some P cs :
  Forall (λ c, is_Some (Change_String P c) ↔ renders c = true) cs →
  is_Some (strs ← mapM (Change_String P) cs; Some (strings_Join strs ", ")) ↔
  forallb renders cs = true.
Proof.
  intros Hcs. rewrite forallb_Forall_True. split.
  - intros [s Hs]. destruct (mapM (Change_String P) cs) as [strs|] eqn:Hm;
      [|discriminate Hs].
    assert (Forall (is_Some ∘ Change_String P) cs) as Hall
      by (apply mapM_is_Some_1; eauto).
    rewrite Forall_forall in Hcs, Hall |- *. intros c Hc.
    apply Hcs; [done|]. by apply Hall.
  - intros Hr.
    assert (is_Some (mapM (Change_String P) cs)) as [strs ->]; [|by eexists].
    apply mapM_is_Some_2. rewrite Forall_forall in Hcs, Hr |- *.
    intros c Hc. apply Hcs; [done|]. by apply Hr.
Qed.

(** X16: the [String] method of a change returns, under every printer,
    exactly when the change holds no argument or result change with a nil
    type and no foreign change whose [String] panics; otherwise it
    panics. *)
Theorem Change_String_renders P c :
  is_Some (Change_String P c) ↔ renders c = true.
Proof.
  induction c as [name typ cs IH|pos name typ cs IH|pos typ cs IH|pos name cs IH
                  |from to|from to| | |from to|rendering]
    using Change_nested_ind; cbn [renders]; try (by split; [done|eexists]).
  - pose proof (joinChanges_is_Some P cs IH) as <-. cbn.
    destruct (mapM (Change_String P) cs); cbn; split; by eauto using mk_is_Some.
  - pose proof (joinChanges_is_Some P cs IH) as Hj. cbn.
    rewrite andb_true_iff, bool_decide_eq_true, <- Hj.
    destruct typ as [t|]; cbn.
    + destruct (mapM (Change_String P) cs); cbn;
        split; try (by intros [??]); try (by intros [_ [??]]); eauto.
    + split; [by intros [??] | by intros [[??] _]].
  - pose proof (joinChanges_is_Some P cs IH) as Hj. cbn.
    rewrite andb_true_iff, bool_decide_eq_true, <- Hj.
    destruct typ as [t|]; cbn.
    + destruct (mapM (Change_String P) cs); cbn;
        split; try (by intros [??]); try (by intros [_ [??]]); eauto.
    + split; [by intros [??] | by intros [[??] _]].
  - pose proof (joinChanges_is_Some P cs IH) as <-. cbn.
    destruct (mapM (Change_String P) cs); cbn; split; by eauto using mk_is_Some.
  - cbn. by rewrite bool_decide_eq_true.
Qed.

(** ** The shape of the changes [Diff] returns *)

Lemma constEmit_flat : emit_flat constEmit.
Proof.
  intros name v o c. unfold constEmit, typesEqual.
  destruct o; repeat case_match; cbn; set_solver.
Qed.

Lemma varEmit_flat : emit_flat varEmit.
Proof. intros name v o c. unfold varEmit, typesEqual. destruct o; cbn; set_solver. Qed.

Lemma removedEmit_flat {A} typ : emit_flat (@removedEmit A typ).
Proof. intros name v o c. unfold removedEmit. destruct o; set_solver. Qed.

Lemma typeDefEmit_flat : emit_flat typeDefEmit.
Proof.
  intros name v o c. unfold typeDefEmit, typesEqual. destruct o; cbn; set_solver.
Qed.

Lemma diffShape_flat {A} typ (emit : string → A → option A → list Change)
    prevIdx currentIdx o1 o2 :
  emit_flat emit →
  Forall (λ c, isFlat c = true) (diffShape typ emit prevIdx currentIdx o1 o2).
Proof.
  intros Hemit. unfold diffShape. rewrite Forall_app, !Forall_forall.
  split; intros c (k & Hc & _)%list_elem_of_bind.
  - destruct (prevIdx !! k); [by apply Hemit in Hc | by apply elem_of_nil in Hc].
  - case_decide; [|by apply elem_of_nil in Hc].
    by apply list_elem_of_singleton in Hc as ->.
Qed.

Lemma packageDiff_flat po prev current :
  pkgOrd_ok po prev current →
  Forall (λ c, isFlat c = true) (PC_Changes (packageDiff po prev current)).
Proof.
  intros Hok. pkg_order Hok. unfold packageDiff. cbn [PC_Changes].
  rewrite constsDiff_shape, varsDiff_shape, funcsDiff_shape,
    structsDiff_shape, interfacesDiff_shape, typesDiff_shape by done.
  rewrite !Forall_app. split_and!; [done|..]; apply diffShape_flat;
    auto using constEmit_flat, varEmit_flat, @removedEmit_flat, typeDefEmit_flat.
Qed.

Lemma Diff_flat s current prev :
  sched_ok s current prev →
  Forall (λ pc, Forall (λ c, isFlat c = true) (PC_Changes pc))
    (Diff s current prev).
Proof.
  intros (Hok1 & Hok2 & Hpkg). rewrite Diff_shape by done.
  rewrite Forall_app, !Forall_forall.
  split; intros pc (path & Hpc & _)%list_elem_of_bind.
  - destruct (packagesIndex prev !! path) as [p1|] eqn:Hp1;
      [|by apply elem_of_nil in Hpc].
    cbn in Hpc. unfold pathRound in Hpc.
    destruct (packagesIndex current !! path) as [p2|] eqn:Hp2;
      apply list_elem_of_singleton in Hpc as ->.
    + apply packageDiff_flat. eauto.
    + by repeat constructor.
  - destruct (packagesIndex current !! path) as [p|]; [|by apply elem_of_nil in Hpc].
    cbn in Hpc. unfold pathAdded in Hpc.
    case_decide; [by apply elem_of_nil in Hpc|].
    apply list_elem_of_singleton in Hpc as ->. by repeat constructor.
Qed.

(** X17: every change in a result of [Diff] is a [DeclChange] with a single
    child, which is [Removed], [Added], a [TypeChanged] or a
    [ValueChanged]; [Diff] never builds an [ArgumentChanged], a
    [ResultChanged], a [FieldChanged] or a [PositionChanged], and never
    nests a [DeclChange] in another. *)
Theorem Diff_changes_flat s current prev :
  sched_ok s current prev →
  Forall (λ pc, Forall (λ c, isFlat c = true) (PC_Changes pc))
    (Diff s current prev).
Proof. apply Diff_flat. Qed.

Lemma Diff_changes_flat_witness :
  Forall (λ pc, Forall (λ c, isFlat c = true) (PC_Changes pc))
    (Diff exampleSched exampleCurrent examplePrev).
Proof. apply Diff_changes_flat, exampleSched_ok. Defined.

Lemma isFlat_renders P c : isFlat c = true → is_Some (Change_String P c).
Proof.
  destruct c as [name typ [|[] [|??]]| | | | | | | | |]; try discriminate;
    intros _; cbn; eauto.
Qed.

(** X18: rendering a result of [Diff] never panics: the [String] method
    returns for every change of every entry, under every printer. *)
Theorem Diff_renders P s current prev :
  sched_ok s current prev →
  Forall (λ pc, Forall (λ c, is_Some (Change_String P c)) (PC_Changes pc))
    (Diff s current prev).
Proof.
  intros Hs. eapply Forall_impl; [by apply Diff_flat|].
  intros pc Hpc. eapply Forall_impl; [exact Hpc|].
  intros c. apply isFlat_renders.
Qed.

Lemma Diff_renders_witness :
  Forall (λ pc, Forall (λ c, is_Some (Change_String
                                         (mkPrinter (λ _, "0") id (λ _, "t") (λ _, "t")) c))
                  (PC_Changes pc))
    (Diff exampleSched exampleCurrent examplePrev).
Proof. apply Diff_renders, exampleSched_ok. Defined.

(** ** Introspection *)

Lemma exportedObjects_snoc {B} exported (pick : GoObject → option B) scope obj :
  exportedObjects exported pick (scope ++ [obj]) =
  exportedObjects exported pick scope ++
  (if exported (GoObject_Name obj) then option_list (pick obj) else []).
Proof.
  unfold exportedObjects. rewrite omap_app. f_equal. cbn.
  destruct (exported (GoObject_Name obj)); [|done]. by destruct (pick obj).
Qed.

(** The loop of [packageFromGoPackage], category by category. *)
Lemma packageFromGoPackage_loop exported name path scope :
  foldl (packageFromGoPackage_round exported)
    (mkPackage name path [] [] [] [] [] []) scope =
  mkPackage name path
    (exportedObjects exported pickVar scope)
    (exportedObjects exported pickConst scope)
    (exportedObjects exported pickFunc scope)
    (exportedObjects exported pickStruct scope)
    (exportedObjects exported pickInterface scope)
    (exportedObjects exported pickTypeDef scope).
Proof.
  induction scope as [|obj scope IH] using rev_ind; [done|].
  rewrite foldl_app, IH, !exportedObjects_snoc. cbn.
  unfold packageFromGoPackage_round.
  destruct (exported (GoObject_Name obj)); cbn; [|by rewrite !app_nil_r].
  destruct obj as [f|n a [ms|fs ms pms|t]|n t|n t e|n]; cbn;
    by rewrite ?app_nil_r.
Qed.

(** X19: [packageFromGoPackage] never fails; the package it returns has the
    name and the path of the Go package, and each of its six categories
    holds the exported objects of its kind, in the order of the scope:
    variables, constants, functions, type names of a struct type, of an
    interface type, and of any other type. *)
Theorem packageFromGoPackage_categories exported gopkg :
  (packageFromGoPackage exported gopkg).2 = None
  ∧ (packageFromGoPackage exported gopkg).1 =
    mkPackage (GoPackage_Name gopkg) (GoPackage_Path gopkg)
      (exportedObjects exported pickVar (GoPackage_Scope gopkg))
      (exportedObjects exported pickConst (GoPackage_Scope gopkg))
      (exportedObjects exported pickFunc (GoPackage_Scope gopkg))
      (exportedObjects exported pickStruct (GoPackage_Scope gopkg))
      (exportedObjects exported pickInterface (GoPackage_Scope gopkg))
      (exportedObjects exported pickTypeDef (GoPackage_Scope gopkg)).
Proof. split; [done|]. apply packageFromGoPackage_loop. Qed.

Lemma pick_names obj :
  Var_Name <$> pickVar obj = (pickVar obj ≫= λ _, Some (GoObject_Name obj))
  ∧ Const_Name <$> pickConst obj = (pickConst obj ≫= λ _, Some (GoObject_Name obj))
  ∧ Func_Name <$> pickFunc obj = (pickFunc obj ≫= λ _, Some (GoObject_Name obj))
  ∧ Struct_Name <$> pickStruct obj
    = (pickStruct obj ≫= λ _, Some (GoObject_Name obj))
  ∧ Interface_Name <$> pickInterface obj
    = (pickInterface obj ≫= λ _, Some (GoObject_Name obj))
  ∧ TypeDef_Name <$> pickTypeDef obj
    = (pickTypeDef obj ≫= λ _, Some (GoObject_Name obj)).
Proof. by destruct obj as [f|n a [ms|fs ms pms|t]|n t|n t e|n]. Qed.

(** The names of the declarations after one more round. *)
Lemma declarationNames_snoc exported name path scope obj :
  declarationNames
    (foldl (packageFromGoPackage_round exported)
       (mkPackage name path [] [] [] [] [] []) (scope ++ [obj])) ≡ₚ
  declarationNames
    (foldl (packageFromGoPackage_round exported)
       (mkPackage name path [] [] [] [] [] []) scope) ++
  (if exported (GoObject_Name obj) && isDeclaration obj
   then [GoObject_Name obj] else []).
Proof.
  rewrite !packageFromGoPackage_loop. unfold declarationNames. cbn.
  rewrite !exportedObjects_snoc.
  destruct (exported (GoObject_Name obj)); cbn; [|by rewrite !app_nil_r].
  destruct obj as [f|n a [ms|fs ms pms|t]|n t|n t e|n]; cbn;
    rewrite ?app_nil_r, ?fmap_app; cbn; solve_Permutation.
Qed.

Lemma declarationNames_declared exported name path scope :
  declarationNames
    (foldl (packageFromGoPackage_round exported)
       (mkPackage name path [] [] [] [] [] []) scope) ≡ₚ
  GoObject_Name <$> declaredObjects exported scope.
Proof.
  induction scope as [|obj scope IH] using rev_ind; [done|].
  rewrite declarationNames_snoc, IH. unfold declaredObjects.
  rewrite filter_app, fmap_app. f_equiv.
  destruct (exported (GoObject_Name obj)) eqn:He, (isDeclaration obj) eqn:Hd; cbn.
  - by rewrite decide_True by done.
  - rewrite decide_False; [done|]. intros [_ ?]. congruence.
  - rewrite decide_False; [done|]. intros [? _]. congruence.
  - rewrite decide_False; [done|]. intros [? _]. congruence.
Qed.

(** X20: the declarations of the package [packageFromGoPackage] returns
    are, up to the grouping into categories, the exported objects of the
    four kinds it reads: every declaration name is the name of such an
    object, no unexported name occurs, and every such object gives one
    declaration. *)
Theorem packageFromGoPackage_names exported gopkg :
  declarationNames (packageFromGoPackage exported gopkg).1 ≡ₚ
    GoObject_Name <$> declaredObjects exported (GoPackage_Scope gopkg)
  ∧ ∀ name, name ∈ declarationNames (packageFromGoPackage exported gopkg).1 →
            exported name = true.
Proof.
  pose proof (declarationNames_declared exported (GoPackage_Name gopkg)
                (GoPackage_Path gopkg) (GoPackage_Scope gopkg)) as Hperm.
  split; [done|]. intros name. unfold packageFromGoPackage. cbn [fst].
  rewrite Hperm. intros (obj & -> & Hobj)%list_elem_of_fmap.
  by apply list_elem_of_filter in Hobj as [[? _] _].
Qed.

Lemma declarationNames_NoDup exported gopkg :
  NoDup (GoObject_Name <$> GoPackage_Scope gopkg) →
  NoDup (declarationNames (packageFromGoPackage exported gopkg).1).
Proof.
  intros Hnd. unfold packageFromGoPackage. cbn [fst].
  rewrite declarationNames_declared.
  eapply sublist_NoDup; [exact Hnd|].
  apply fmap_sublist, sublist_filter.
Qed.

(** X21: when no two objects of the scope share a name, no name occurs
    twice among the declarations [packageFromGoPackage] returns, in one
    category or across categories, and each index of the diff built from a
    category finds every declaration of the category under its name. *)
Theorem introspected_names_unique exported gopkg :
  NoDup (GoObject_Name <$> GoPackage_Scope gopkg) →
  NoDup (declarationNames (packageFromGoPackage exported gopkg).1)
  ∧ (∀ x, x ∈ Package_Vars (packageFromGoPackage exported gopkg).1 →
       varsIndex (Package_Vars (packageFromGoPackage exported gopkg).1)
         !! Var_Name x = Some x)
  ∧ (∀ x, x ∈ Package_Consts (packageFromGoPackage exported gopkg).1 →
       constsIndex (Package_Consts (packageFromGoPackage exported gopkg).1)
         !! Const_Name x = Some x)
  ∧ (∀ x, x ∈ Package_Funcs (packageFromGoPackage exported gopkg).1 →
       funcsIndex (Package_Funcs (packageFromGoPackage exported gopkg).1)
         !! Func_Name x = Some x)
  ∧ (∀ x, x ∈ Package_Structs (packageFromGoPackage exported gopkg).1 →
       structsIndex (Package_Structs (packageFromGoPackage exported gopkg).1)
         !! Struct_Name x = Some x)
  ∧ (∀ x, x ∈ Package_Interfaces (packageFromGoPackage exported gopkg).1 →
       interfacesIndex (Package_Interfaces (packageFromGoPackage exported gopkg).1)
         !! Interface_Name x = Some x)
  ∧ (∀ x, x ∈ Package_Types (packageFromGoPackage exported gopkg).1 →
       typesIndex (Package_Types (packageFromGoPackage exported gopkg).1)
         !! TypeDef_Name x = Some x).
Proof.
  intros Hnd%(declarationNames_NoDup exported). split; [done|].
  unfold declarationNames in Hnd.
  apply NoDup_app in Hnd as (Hv & _ & Hnd).
  apply NoDup_app in Hnd as (Hc & _ & Hnd).
  apply NoDup_app in Hnd as (Hf & _ & Hnd).
  apply NoDup_app in Hnd as (Hs & _ & Hnd).
  apply NoDup_app in Hnd as (Hi & _ & Ht).
  split_and!; intros x Hx; by apply index_unique_lookup.
Qed.

Lemma introspected_names_unique_witness :
  let gopkg :=
    mkGoPackage "p" "x/p"
      [ GoConst "A" (Some (TBasic "int")) "1";
        GoFuncObj (mkGoFunc "F" [mkGoVar "x" (Some (TBasic "int"))] []);
        GoVarObj "hidden" None ] in
  let exported := λ s, negb (String.eqb s "hidden") in
  NoDup (declarationNames (packageFromGoPackage exported gopkg).1)
  ∧ (∀ x, x ∈ Package_Vars (packageFromGoPackage exported gopkg).1 →
       varsIndex (Package_Vars (packageFromGoPackage exported gopkg).1)
         !! Var_Name x = Some x)
  ∧ (∀ x, x ∈ Package_Consts (packageFromGoPackage exported gopkg).1 →
       constsIndex (Package_Consts (packageFromGoPackage exported gopkg).1)
         !! Const_Name x = Some x)
  ∧ (∀ x, x ∈ Package_Funcs (packageFromGoPackage exported gopkg).1 →
       funcsIndex (Package_Funcs (packageFromGoPackage exported gopkg).1)
         !! Func_Name x = Some x)
  ∧ (∀ x, x ∈ Package_Structs (packageFromGoPackage exported gopkg).1 →
       structsIndex (Package_Structs (packageFromGoPackage exported gopkg).1)
         !! Struct_Name x = Some x)
  ∧ (∀ x, x ∈ Package_Interfaces (packageFromGoPackage exported gopkg).1 →
       interfacesIndex (Package_Interfaces (packageFromGoPackage exported gopkg).1)
         !! Interface_Name x = Some x)
  ∧ (∀ x, x ∈ Package_Types (packageFromGoPackage exported gopkg).1 →
       typesIndex (Package_Types (packageFromGoPackage exported gopkg).1)
         !! TypeDef_Name x = Some x).
Proof.
  apply introspected_names_unique.
  cbn. refine (bool_decide_unpack _ _). vm_compute. exact I.
Defined.

Lemma ProjectAPI_loop_Ok exported packages api :
  ProjectAPI_loop exported packages api =
  Ok (api ++ ((λ gopkg, (packageFromGoPackage exported gopkg).1) <$> packages)).
Proof.
  revert api. induction packages as [|gopkg packages IH]; intros api; cbn.
  - by rewrite app_nil_r.
  - rewrite IH. by rewrite <- app_assoc.
Qed.

(** X22: [ProjectAPI] fails exactly when loading the packages of the
    project fails, with the error of the loading; the conversion of a
    loaded package never fails.  Otherwise it returns one [Package] per
    loaded package, converted by [packageFromGoPackage], in the order of the
    loading, so with the paths and names of the loaded packages. *)
Theorem ProjectAPI_result exported projectPackages path :
  ProjectAPI exported projectPackages path =
    match projectPackages path with
    | inl err => Err ("error getting project packages: " +:+ err)
    | inr packages =>
        Ok ((λ gopkg, (packageFromGoPackage exported gopkg).1) <$> packages)
    end
  ∧ ∀ api packages,
      projectPackages path = inr packages →
      ProjectAPI exported projectPackages path = Ok api →
      Package_Path <$> api = GoPackage_Path <$> packages
      ∧ Package_Name <$> api = GoPackage_Name <$> packages.
Proof.
  unfold ProjectAPI. destruct (projectPackages path) as [err|packages]; [done|].
  rewrite ProjectAPI_loop_Ok. cbn [app]. split; [done|].
  intros api ? [= <-] [= <-]. rewrite <- !list_fmap_compose.
  split; apply list_fmap_ext; intros i gopkg _; cbn;
    by rewrite packageFromGoPackage_loop.
Qed.

(** ** More about version discovery *)

Section more_versions_lemmas.
Context (L : SemverLib).
Local Abbreviation parses := (parses L).
Local Abbreviation sortable := (sortable L).

(** The tag loop: it fails with the error of the first failing step, and
    returns the kept tags after the entries it starts from when no step
    fails. *)
Lemma tagsLoop_first_failure r good bad rest result msg :
  Forall (λ step, stepError r step = None) good →
  stepError r bad = Some msg →
  tagsLoop L r (good ++ bad :: rest) result = Err msg.
Proof.
  intros Hgood Hbad. revert result.
  induction Hgood as [|step good Hstep _ IH]; intros result; cbn.
  - destruct bad as [tag|err]; cbn in *; [|by injection Hbad as ->].
    destruct (Repo_CommitObject r (Tag_Hash tag)); try discriminate.
    by injection Hbad as ->.
  - destruct step as [tag|err]; cbn in Hstep; [|discriminate].
    destruct (Repo_CommitObject r (Tag_Hash tag)); try discriminate.
    + destruct (semver_NewVersion L (Tag_Short tag)); apply IH.
    + apply IH.
Qed.

Lemma tagsLoop_no_failure r steps result :
  Forall (λ step, stepError r step = None) steps →
  tagsLoop L r steps result = Ok (result ++ keptTags L r steps).
Proof.
  intros Hsteps. revert result.
  induction Hsteps as [|step steps Hstep _ IH]; intros result; cbn.
  - by rewrite app_nil_r.
  - destruct step as [tag|err]; cbn in Hstep; [|discriminate]. cbn.
    destruct (Repo_CommitObject r (Tag_Hash tag)); try discriminate; [|apply IH].
    destruct (semver_NewVersion L (Tag_Short tag)); [|apply IH].
    rewrite IH. by rewrite <- app_assoc.
Qed.

(** Every list of steps either has a first failing step or none. *)
Lemma steps_split r steps :
  Forall (λ step, stepError r step = None) steps
  ∨ ∃ good bad rest msg,
      steps = good ++ bad :: rest
      ∧ Forall (λ step, stepError r step = None) good
      ∧ stepError r bad = Some msg.
Proof.
  induction steps as [|step steps IH]; [by left|].
  destruct (stepError r step) as [msg|] eqn:Hstep.
  - right. by exists [], step, steps, msg.
  - destruct IH as [IH|(good & bad & rest & msg & -> & Hgood & Hbad)].
    + left. by constructor.
    + right. exists (step :: good), bad, rest, msg. split; [done|].
      split; [by constructor | done].
Qed.

Lemma byVersion_Less_total x y :
  sortable x → sortable y → is_Some (byVersion_Less L x y).
Proof.
  intros Hx Hy. unfold byVersion_Less.
  destruct (String.eqb_spec (Version_Name x) "HEAD") as [|Hnx]; [by eexists|].
  destruct (String.eqb_spec (Version_Name y) "HEAD") as [|Hny]; [by eexists|].
  destruct Hx as [?|[a ->]]; [done|]. destruct Hy as [?|[b ->]]; [done|].
  by eexists.
Qed.

Lemma insertLeft_total x l :
  sortable x → Forall sortable l →
  ∃ l', insertLeft (byVersion_Less L) x l = Some l' ∧ Forall sortable l'.
Proof.
  intros Hx. induction 1 as [|y l Hy Hl IH]; cbn.
  - exists [x]. split; [done|]. by apply Forall_singleton.
  - destruct (byVersion_Less_total x y Hx Hy) as [b ->]. cbn.
    destruct b.
    + destruct IH as (l' & -> & Hl'). cbn. exists (y :: l').
      split; [done|]. by apply Forall_cons.
    + exists (x :: y :: l). split; [done|]. by rewrite !Forall_cons.
Qed.

Lemma insertionSort_total sorted_rev todo :
  Forall sortable sorted_rev → Forall sortable todo →
  is_Some (insertionSort (byVersion_Less L) sorted_rev todo).
Proof.
  intros Hs Htodo. revert sorted_rev Hs.
  induction Htodo as [|x todo Hx _ IH]; intros sorted_rev Hs; cbn; [by eexists|].
  destruct (insertLeft_total x sorted_rev Hx Hs) as (l' & -> & Hl'). cbn.
  by apply IH.
Qed.

Lemma keptTags_sortable r steps : Forall sortable (keptTags L r steps).
Proof.
  apply Forall_forall. intros v (step & _ & Hstep)%list_elem_of_omap.
  destruct step as [tag|]; [|done].
  destruct (Repo_CommitObject r (Tag_Hash tag)); try done.
  destruct (semver_NewVersion L (Tag_Short tag)) eqn:Hp; [|done].
  injection Hstep as <-. right. unfold parses. cbn. by rewrite Hp.
Qed.

(** [Versions] on a repository that opens and has a head and a tag list. *)
Lemma Versions_tags git_PlainOpen path r h iter :
  git_PlainOpen path = inr r → Repo_Head r = HeadAt h → Repo_Tags r = inr iter →
  Versions L git_PlainOpen path =
  match tagsLoop L r iter [mkVersion "HEAD" h] with
  | Ok result =>
      match sort_Stable (byVersion_Less L) result with
      | Some result => Ok result
      | None => Panic
      end
  | Err msg => Err msg
  | Panic => Panic
  end.
Proof. intros Ho Hh Ht. unfold Versions. by rewrite Ho, Hh, Ht. Qed.

(** X23: [Versions] returns a list exactly when the repository opens, its
    head resolves, its tags can be listed, no step of the tag iteration
    fails and no tag fails to resolve with an error other than ``object not
    found''; tags that are no semantic versions or point to no commit never
    make it fail. *)
Theorem Versions_succeeds_iff git_PlainOpen path :
  (∃ vs, Versions L git_PlainOpen path = Ok vs) ↔
  ∃ r h iter,
    git_PlainOpen path = inr r
    ∧ Repo_Head r = HeadAt h
    ∧ Repo_Tags r = inr iter
    ∧ Forall (λ step, stepError r step = None) iter.
Proof.
  split.
  - intros [vs Hvs]. unfold Versions in Hvs.
    destruct (git_PlainOpen path) as [err|r] eqn:Ho; [done|].
    destruct (Repo_Head r) as [h| |err] eqn:Hh; [|done..].
    destruct (Repo_Tags r) as [err|iter] eqn:Ht; [done|].
    exists r, h, iter. split_and!; try done.
    destruct (steps_split r iter)
      as [Hall|(good & bad & rest & msg & -> & Hgood & Hbad)]; [done|].
    by rewrite (tagsLoop_first_failure r good bad rest _ msg) in Hvs.
  - intros (r & h & iter & Ho & Hh & Ht & Hall).
    rewrite (Versions_tags _ _ r h iter) by done.
    rewrite tagsLoop_no_failure by done. unfold sort_Stable.
    destruct (insertionSort_total [] ([mkVersion "HEAD" h] ++ keptTags L r iter))
      as [vs ->]; [constructor| |by eexists].
    apply Forall_app. split; [|apply keptTags_sortable].
    apply Forall_singleton. by left.
Qed.

(** X24: when the repository opens and has a head and a tag list,
    [Versions] fails with the error of the first failing step of the tag
    iteration, whatever the steps after it are: ``error getting next tag''
    for a failing iterator, ``unknown error getting commit'' for a tag that
    fails to resolve. *)
Theorem Versions_first_failure git_PlainOpen path r h good bad rest msg :
  git_PlainOpen path = inr r → Repo_Head r = HeadAt h →
  Repo_Tags r = inr (good ++ bad :: rest) →
  Forall (λ step, stepError r step = None) good →
  stepError r bad = Some msg →
  Versions L git_PlainOpen path = Err msg.
Proof.
  intros Ho Hh Ht Hgood Hbad.
  rewrite (Versions_tags _ _ r h _ Ho Hh Ht).
  by rewrite (tagsLoop_first_failure r good bad rest _ msg).
Qed.
(** X26: when the tag iteration does not fail and keeps no tag (the
    repository has no tags, or none that is a semantic version pointing to
    a commit), [Versions] returns the single entry [HEAD] with the hash of
    the head. *)
Theorem Versions_only_HEAD git_PlainOpen path r h iter :
  git_PlainOpen path = inr r → Repo_Head r = HeadAt h → Repo_Tags r = inr iter →
  Forall (λ step, stepError r step = None) iter →
  keptTags L r iter = [] →
  Versions L git_PlainOpen path = Ok [mkVersion "HEAD" h].
Proof.
  intros Ho Hh Ht Hall Hkept.
  rewrite (Versions_tags _ _ r h iter) by done.
  by rewrite tagsLoop_no_failure, Hkept by done.
Qed.

(** X25: on the entries [Versions] sorts, [byVersion.Less] always returns;
    an entry named [HEAD] is less than every entry, itself included, and no
    other entry is less than it.  When [LessThan] of the semver library is
    asymmetric, [Less] is asymmetric except between two entries named
    [HEAD]; when [LessThan] is negatively transitive, so is [Less]: it
    orders a list that holds the sentinel once. *)
Theorem byVersion_Less_orders x y z :
  sortable x → sortable y → sortable z →
  is_Some (byVersion_Less L x y)
  ∧ (Version_Name x = "HEAD" → byVersion_Less L x y = Some true)
  ∧ (Version_Name x ≠ "HEAD" → Version_Name y = "HEAD" →
     byVersion_Less L x y = Some false)
  ∧ ((∀ a b, semver_LessThan L a b = true → semver_LessThan L b a = false) →
     byVersion_Less L x y = Some true →
     ¬ (Version_Name x = "HEAD" ∧ Version_Name y = "HEAD") →
     byVersion_Less L y x = Some false)
  ∧ ((∀ a b c, semver_LessThan L a b = false → semver_LessThan L b c = false →
               semver_LessThan L a c = false) →
     byVersion_Less L x y = Some false → byVersion_Less L y z = Some false →
     byVersion_Less L x z = Some false).
Proof.
  intros Hx Hy Hz. split; [by apply byVersion_Less_total|].
  unfold byVersion_Less.
  destruct (String.eqb_spec (Version_Name x) "HEAD") as [Hhx|Hnx],
           (String.eqb_spec (Version_Name y) "HEAD") as [Hhy|Hny],
           (String.eqb_spec (Version_Name z) "HEAD") as [Hhz|Hnz];
    try (destruct Hx as [?|[a Ha]]; [done|rewrite Ha]);
    try (destruct Hy as [?|[b Hb]]; [done|rewrite Hb]);
    try (destruct Hz as [?|[c Hc]]; [done|rewrite Hc]);
    cbn; split_and!; try done; try tauto; try (intros; simplify_eq; done).
  - intros Hasym [= Hab] _. by rewrite (Hasym _ _ Hab).
  - intros Hasym [= Hab] _. by rewrite (Hasym _ _ Hab).
  - intros Hntrans [= Hab] [= Hbc]. by rewrite (Hntrans _ _ _ Hab Hbc).
Qed.
End more_versions_lemmas.

Lemma Versions_succeeds_iff_witness :
  (∃ vs, Versions toySemver toyOpen "repo" = Ok vs) ↔
  ∃ r h iter,
    toyOpen "repo" = inr r
    ∧ Repo_Head r = HeadAt h
    ∧ Repo_Tags r = inr iter
    ∧ Forall (λ step, stepError r step = None) iter.
Proof. apply (Versions_succeeds_iff toySemver). Defined.

Lemma Versions_first_failure_witness :
  Versions toySemver failingOpen "repo" = Err "error getting next tag: boom".
Proof.
  apply (Versions_first_failure toySemver failingOpen "repo" failingRepository
           [Byte.x09] [NextTag (mkTag "v1.0.0" [Byte.x01])] (NextFailed "boom")
           [NextTag (mkTag "v2.0.0" [Byte.x02])]).
  - reflexivity.
  - reflexivity.
  - reflexivity.
  - repeat constructor.
  - reflexivity.
Defined.

Lemma byVersion_Less_orders_witness :
  let x := mkVersion "HEAD" [Byte.x09] in
  let y := mkVersion "v1.0.0" [Byte.x01] in
  let z := mkVersion "v2.0.0" [Byte.x02] in
  is_Some (byVersion_Less toySemver x y)
  ∧ (Version_Name x = "HEAD" → byVersion_Less toySemver x y = Some true)
  ∧ (Version_Name x ≠ "HEAD" → Version_Name y = "HEAD" →
     byVersion_Less toySemver x y = Some false)
  ∧ ((∀ a b, semver_LessThan toySemver a b = true →
             semver_LessThan toySemver b a = false) →
     byVersion_Less toySemver x y = Some true →
     ¬ (Version_Name x = "HEAD" ∧ Version_Name y = "HEAD") →
     byVersion_Less toySemver y x = Some false)
  ∧ ((∀ a b c, semver_LessThan toySemver a b = false →
               semver_LessThan toySemver b c = false →
               semver_LessThan toySemver a c = false) →
     byVersion_Less toySemver x y = Some false →
     byVersion_Less toySemver y z = Some false →
     byVersion_Less toySemver x z = Some false).
Proof.
  apply (byVersion_Less_orders toySemver).
  - by left.
  - right. by eexists.
  - right. by eexists.
Defined.

Lemma Versions_only_HEAD_witness :
  Versions toySemver
    (λ _, inr (mkRepository (HeadAt [Byte.x09])
                 (inr [NextTag (mkTag "notes" [Byte.x03])]) (λ _, CommitFound)))
    "repo"
  = Ok [mkVersion "HEAD" [Byte.x09]].
Proof.
  apply (Versions_only_HEAD toySemver _ "repo"
           (mkRepository (HeadAt [Byte.x09])
              (inr [NextTag (mkTag "notes" [Byte.x03])]) (λ _, CommitFound))
           [Byte.x09] [NextTag (mkTag "notes" [Byte.x03])]);
    try reflexivity.
  repeat constructor.
Defined.
